(** * The staged multiply/divide engine of [python/multiplier.py]

    A shallow embedding of class [multdiv] and of the driver loops of
    [test_mult] and [test_div].  Python integers are unbounded, so every
    register is a [Z] and each mask of the source is written out with
    [Z.land].  An operation that can raise in Python returns in [outcome];
    the two [while] loops of [div_init] and the driver loops take a fuel
    argument that counts loop iterations. *)

From Stdlib Require Import ZArith Lia List Bool String.
Import ListNotations.
Local Open Scope Z_scope.

(** ** Outcomes: a value, a Python exception, or a loop that is still
       running when the fuel is spent *)

Inductive exn : Set :=
| AttributeError
| ValueError
| UnboundLocalError.

Inductive outcome (A : Type) : Type :=
| Done (x : A)
| Raise (e : exn)
| OutOfFuel.

Arguments Done {A} x.
Arguments Raise {A} e.
Arguments OutOfFuel {A}.

Definition bind {A B : Type} (c : outcome A) (k : A -> outcome B) : outcome B :=
  match c with
  | Done x => k x
  | Raise e => Raise e
  | OutOfFuel => OutOfFuel
  end.

Notation "x <- c ;; k" := (bind c (fun x => k))
  (at level 61, c at next level, right associativity).

(** ** Module constants (lines 3-6) *)

Definition sign_bit : Z := Z.shiftl 1 31.
Definition mask64 : Z := 0xffffffffffffffff.
Definition mask32 : Z := 0xffffffff.
Definition mask31 : Z := 0x7fffffff.

(** Python's [x << n] raises [ValueError] on a negative count. *)
Definition py_shl (x n : Z) : outcome Z :=
  if n <? 0 then Raise ValueError else Done (Z.shiftl x n).

(** ** The registers *)

(** [__init__] creates four attributes; [divisor] only exists once
    [div_init] has run, so it is optional here. *)
Record multdiv : Set := mk_multdiv {
  accumulator : Z;
  multiplier : Z;
  multiplicand : Z;
  stage : Z;
  divisor : option Z
}.

Definition init : multdiv :=
  {| accumulator := 0; multiplier := 0; multiplicand := 0; stage := 0;
     divisor := None |}.

Definition set_accumulator (self : multdiv) (v : Z) : multdiv :=
  {| accumulator := v; multiplier := multiplier self;
     multiplicand := multiplicand self; stage := stage self;
     divisor := divisor self |}.

Definition set_multiplier (self : multdiv) (v : Z) : multdiv :=
  {| accumulator := accumulator self; multiplier := v;
     multiplicand := multiplicand self; stage := stage self;
     divisor := divisor self |}.

Definition set_multiplicand (self : multdiv) (v : Z) : multdiv :=
  {| accumulator := accumulator self; multiplier := multiplier self;
     multiplicand := v; stage := stage self; divisor := divisor self |}.

Definition set_stage (self : multdiv) (v : Z) : multdiv :=
  {| accumulator := accumulator self; multiplier := multiplier self;
     multiplicand := multiplicand self; stage := v;
     divisor := divisor self |}.

Definition set_divisor (self : multdiv) (v : Z) : multdiv :=
  {| accumulator := accumulator self; multiplier := multiplier self;
     multiplicand := multiplicand self; stage := stage self;
     divisor := Some v |}.

(** Reading [self.divisor] before any [div_init]. *)
Definition get_divisor (self : multdiv) : outcome Z :=
  match divisor self with
  | Some d => Done d
  | None => Raise AttributeError
  end.

(** ** [combinatorial] (lines 13-38) *)

(** The four one-armed [if]s that bind a mux output: the variable is
    unbound until one of them fires. *)
Definition mux4 (sel x0 x1 x2 x3 : Z) : outcome Z :=
  let m := @None Z in
  let m := if sel =? 0 then Some x0 else m in
  let m := if sel =? 1 then Some x1 else m in
  let m := if sel =? 2 then Some x2 else m in
  let m := if sel =? 3 then Some x3 else m in
  match m with
  | Some v => Done v
  | None => Raise UnboundLocalError
  end.

(** Lines 14-31: the sum of the two muxed partial products. *)
Definition stage2 (mult4 areg : Z) : outcome Z :=
  let sel0123 := Z.land mult4 3 in
  let sel048c := Z.land (Z.shiftr mult4 2) 3 in
  let stage1_0 := 0 in
  let stage1_1 := areg in
  let stage1_2 := Z.shiftl areg 1 in
  let stage1_3 := stage1_2 + stage1_1 in
  let stage1_4 := Z.shiftl stage1_1 2 in
  let stage1_8 := Z.shiftl stage1_2 2 in
  let stage1_c := Z.shiftl stage1_3 2 in
  mux_0123 <- mux4 sel0123 stage1_0 stage1_1 stage1_2 stage1_3 ;;
  mux_048c <- mux4 sel048c stage1_0 stage1_4 stage1_8 stage1_c ;;
  Done (mux_0123 + mux_048c).

Definition combinatorial (mult4 areg : Z) (subtract_acc : bool) (acc shift : Z)
  : outcome Z :=
  st2 <- stage2 mult4 areg ;;
  sh <- py_shl st2 shift ;;
  if subtract_acc
  then Done (Z.land (sh - acc) mask64)
  else Done (Z.land (sh + acc) mask64).

(** ** [mul_init] (lines 53-67) *)

Definition mul_init (a b : Z) (sa sb : bool) (self : multdiv) : outcome multdiv :=
  let self := set_multiplier self (Z.land a mask32) in
  let self := set_multiplicand self (Z.land b mask32) in
  let self := set_stage self 0 in
  let acc_in := 0 in
  let add_in := 0 in
  let acc_in :=
    if sa && negb (Z.land a sign_bit =? 0)
    then
      let acc_in := Z.shiftl (Z.land b mask32) 32 in
      if sb then Z.land acc_in (Z.shiftl mask31 32) else acc_in
    else acc_in in
  let add_in :=
    if sb && negb (Z.land b sign_bit =? 0)
    then
      let add_in := Z.land a mask32 in
      if sa then Z.land add_in mask31 else add_in
    else add_in in
  next_acc <- combinatorial 1 add_in false acc_in 32 ;;
  Done (set_accumulator self (Z.land next_acc mask64)).

(** ** [div_init] (lines 68-81, the definition in effect)

    The trace line printed at the end is console output only and leaves
    the registers alone; it is not part of the state. *)

Fixpoint normalize_divisor (fuel : nat) (self : multdiv) : outcome multdiv :=
  d <- get_divisor self ;;
  if Z.land d sign_bit =? 0
  then match fuel with
       | O => OutOfFuel
       | S fuel' =>
           let self := set_divisor self (Z.shiftl d 1) in
           let self := set_stage self (stage self + 1) in
           normalize_divisor fuel' self
       end
  else Done self.

Fixpoint normalize_accumulator (fuel : nat) (self : multdiv) : outcome multdiv :=
  if Z.land (accumulator self) (Z.shiftl sign_bit 32) =? 0
  then match fuel with
       | O => OutOfFuel
       | S fuel' =>
           let self := set_accumulator self (Z.shiftl (accumulator self) 1) in
           let self := set_stage self (stage self - 1) in
           normalize_accumulator fuel' self
       end
  else Done self.

Definition div_init (fuel : nat) (a b : Z) (signed : bool) (self : multdiv)
  : outcome multdiv :=
  let self := set_divisor self (Z.land b mask32) in
  let self := set_stage self 0 in
  let self := set_accumulator self (Z.shiftl (Z.land a mask32) 32) in
  self <- normalize_divisor fuel self ;;
  normalize_accumulator fuel self.

(** ** [mul_step] (lines 82-91) *)

Definition mul_step (self : multdiv) : outcome (multdiv * bool) :=
  next_acc <- combinatorial (Z.land (multiplier self) 15)
                            (multiplicand self)
                            (stage self =? 0)
                            (accumulator self)
                            (stage self * 4) ;;
  let self := set_accumulator self next_acc in
  let self := set_stage self (stage self + 1) in
  let self := set_multiplier self (Z.shiftr (multiplier self) 4) in
  Done (self, multiplier self =? 0).

(** ** [div_step] (lines 92-104) *)

Definition div_step (self : multdiv) : outcome (multdiv * bool) :=
  d <- get_divisor self ;;
  next_acc <- combinatorial 1 d true (accumulator self) 32 ;;
  self <- (if (0 <=? next_acc) && (0 <=? stage self)
           then
             p <- py_shl 1 (stage self) ;;
             let next_acc := - next_acc + p in
             Done (set_accumulator self next_acc)
           else Done self) ;;
  let self := set_divisor self (Z.shiftr d 1) in
  let self := set_stage self (stage self - 1) in
  Done (self, stage self <? 0).

(** ** Result extraction (lines 105-108) *)

Definition div_remainder (self : multdiv) (a b : Z) (signed : bool) : Z :=
  Z.land (Z.shiftr (accumulator self) 32) mask32.

Definition div_result (self : multdiv) (a b : Z) (signed : bool) : Z :=
  Z.land (accumulator self) mask32.

(** ** The driver loops of [test_mult] and [test_div] *)

(** [while not x.mul_step(): pass] *)
Fixpoint mul_run (fuel : nat) (self : multdiv) : outcome multdiv :=
  match fuel with
  | O => OutOfFuel
  | S fuel' =>
      r <- mul_step self ;;
      if snd r then Done (fst r) else mul_run fuel' (fst r)
  end.

(** [while not x.div_step(): pass] *)
Fixpoint div_run (fuel : nat) (self : multdiv) : outcome multdiv :=
  match fuel with
  | O => OutOfFuel
  | S fuel' =>
      r <- div_step self ;;
      if snd r then Done (fst r) else div_run fuel' (fst r)
  end.

(** Lines 119-123 of [test_mult]: a fresh engine, [mul_init], the loop,
    then the accumulator is read. *)
Definition multiply (fuel : nat) (a b : Z) (sa sb : bool) : outcome Z :=
  x <- mul_init a b sa sb init ;;
  x <- mul_run fuel x ;;
  Done (accumulator x).

(** Lines 141-146 of [test_div]: quotient and remainder as read back. *)
Definition divide (fuel : nat) (a b : Z) (signed : bool) : outcome (Z * Z) :=
  x <- div_init fuel a b signed init ;;
  x <- div_run fuel x ;;
  Done (div_result x a b signed, div_remainder x a b signed).

(** Lines 115-118: an operand as the driver reads it back as a signed
    32-bit number. *)
Definition signed32 (a : Z) : Z :=
  let a := Z.land a mask32 in
  if negb (Z.land a sign_bit =? 0) then a - Z.shiftl 1 32 else a.

(** [n] consecutive calls of a step function, with the values they
    return, in call order. *)
Fixpoint steps (step : multdiv -> outcome (multdiv * bool)) (n : nat)
  (self : multdiv) : outcome (multdiv * list bool) :=
  match n with
  | O => Done (self, [])
  | S n' =>
      r <- step self ;;
      rest <- steps step n' (fst r) ;;
      Done (fst rest, snd r :: snd rest)
  end.

(** ** Derived states and closed forms used in the proofs *)

(** What [mul_init] stores: the masked operands, stage 0, and the two
    sign corrections folded into the accumulator. *)
Definition bias (a b : Z) (sa sb : bool) : Z :=
  let A := a mod 2 ^ 32 in
  let B := b mod 2 ^ 32 in
  let acc_in := if sa && (2 ^ 31 <=? A)
                then (if sb then B mod 2 ^ 31 else B) * 2 ^ 32 else 0 in
  let add_in := if sb && (2 ^ 31 <=? B)
                then (if sa then A mod 2 ^ 31 else A) else 0 in
  (add_in * 2 ^ 32 + acc_in) mod 2 ^ 64.

(** The registers after [k >= 1] steps of a multiply that started from
    multiplier [A], multiplicand [B] and accumulator [acc0]. *)
Definition mul_inv (A B acc0 k : Z) (s : multdiv) : Prop :=
  stage s = k /\
  multiplier s = A / 16 ^ k /\
  multiplicand s = B /\
  accumulator s = (A mod 16 ^ k * B - acc0) mod 2 ^ 64.

(** The state after one more turn of the divisor loop. *)
Definition shift_divisor (self : multdiv) (d : Z) : multdiv :=
  set_stage (set_divisor self (Z.shiftl d 1)) (stage self + 1).

(** The state after one more turn of the accumulator loop. *)
Definition shift_accumulator (self : multdiv) : multdiv :=
  set_stage (set_accumulator self (Z.shiftl (accumulator self) 1))
            (stage self - 1).

(** The state [div_init] hands to its first loop. *)
Definition div_init_loaded (a b : Z) (self : multdiv) : multdiv :=
  set_accumulator (set_stage (set_divisor self (Z.land b mask32)) 0)
                  (Z.shiftl (Z.land a mask32) 32).

(** ** Properties examined *)

(** "Every multiply completes in exactly 8 steps": seven calls that
    return false, then one that returns true. *)
Definition completes_in_exactly_8 (a b : Z) (sa sb : bool) (self : multdiv)
  : Prop :=
  exists s,
    (x <- mul_init a b sa sb self ;; steps mul_step 8 x) =
    Done (s, [false; false; false; false; false; false; false; true]).

(** The combinational stage read as "subtract the shifted sum from the
    accumulator": accumulator minus shifted sum when the flag is set. *)
Definition combinatorial_acc_minus_sum (mult4 areg : Z) (subtract_acc : bool)
  (acc shift : Z) : Z :=
  let sum := Z.land mult4 15 * areg in
  if subtract_acc
  then Z.land (acc - Z.shiftl sum shift) mask64
  else Z.land (Z.shiftl sum shift + acc) mask64.

(** One call of [mul_step] that returns with the accumulator it found. *)
Definition mul_step_keeps_accumulator (self : multdiv) : Prop :=
  exists s' r, mul_step self = Done (s', r) /\ accumulator s' = accumulator self.

(** Operations on one engine, in the order a caller issues them. *)
Inductive op : Set :=
| MulInit (a b : Z) (sa sb : bool)
| MulStep
| DivInit (fuel : nat) (a b : Z) (signed : bool)
| DivStep.

Definition apply_op (o : op) (self : multdiv) : outcome multdiv :=
  match o with
  | MulInit a b sa sb => mul_init a b sa sb self
  | MulStep => r <- mul_step self ;; Done (fst r)
  | DivInit fuel a b signed => div_init fuel a b signed self
  | DivStep => r <- div_step self ;; Done (fst r)
  end.

Fixpoint run_ops (ops : list op) (self : multdiv) : outcome multdiv :=
  match ops with
  | [] => Done self
  | o :: ops' => x <- apply_op o self ;; run_ops ops' x
  end.

Definition accumulator_in_range (self : multdiv) : Prop :=
  0 <= accumulator self < 2 ^ 64.

Definition narrow_in_range (self : multdiv) : Prop :=
  0 <= multiplier self < 2 ^ 32 /\
  0 <= multiplicand self < 2 ^ 32 /\
  forall d, divisor self = Some d -> 0 <= d < 2 ^ 32.

Definition registers_in_range (self : multdiv) : Prop :=
  accumulator_in_range self /\ narrow_in_range self.

(** What a caller sees of [n] divide steps: each return value with the
    accumulator it left behind. *)
Fixpoint div_observe (n : nat) (self : multdiv) : outcome (list (bool * Z)) :=
  match n with
  | O => Done []
  | S n' =>
      r <- div_step self ;;
      rest <- div_observe n' (fst r) ;;
      Done ((snd r, accumulator (fst r)) :: rest)
  end.

(** ** [test_mult] (lines 110-130) *)

(** One printed line of [test_mult]: the arguments of its format
    string, in order ([r] is passed twice there and kept once here). *)
Record mult_row : Set := mk_mult_row {
  row_a32 : Z;
  row_b32 : Z;
  row_a : Z;
  row_b : Z;
  row_r : Z;
  row_m : Z;
  row_err : string
}.

(** A [for] loop whose body may raise or hang: the bodies run in list
    order and the first one that does not return ends the loop. *)
Fixpoint for_each {A B : Type} (body : A -> outcome B) (l : list A)
  : outcome (list B) :=
  match l with
  | [] => Done []
  | x :: l' =>
      y <- body x ;;
      ys <- for_each body l' ;;
      Done (y :: ys)
  end.

(** The body of the inner loop (lines 115-130). *)
Definition test_mult_case (fuel : nat) (test_a test_b : Z)
  (flags : bool * bool) (signs : Z * Z) : outcome mult_row :=
  let '(sa, sb) := flags in
  let '(na, nb) := signs in
  let a := Z.land (na * test_a) mask32 in
  let b := Z.land (nb * test_b) mask32 in
  let a := if negb (Z.land a sign_bit =? 0) then a - Z.shiftl 1 32 else a in
  let b := if negb (Z.land b sign_bit =? 0) then b - Z.shiftl 1 32 else b in
  x <- mul_init a b sa sb init ;;
  x <- mul_run fuel x ;;
  let r := accumulator x in
  let m := Z.land a mask32 * Z.land b mask32 in
  let m := if sa && sb then Z.land (a * b) mask64 else m in
  let m := if sa && negb sb then Z.land (a * Z.land b mask32) mask64 else m in
  let m := if sb && negb sa then Z.land (b * Z.land a mask32) mask64 else m in
  let err := EmptyString in
  let err := if negb (r =? m) then "DIFFERENT"%string else err in
  Done {| row_a32 := Z.land a mask32; row_b32 := Z.land b mask32;
          row_a := a; row_b := b; row_r := r; row_m := m; row_err := err |}.

Definition test_mult (fuel : nat) (test_a test_b : Z) : outcome (list mult_row) :=
  let test_a := Z.land test_a mask32 in
  let test_b := Z.land test_b mask32 in
  rows <- for_each
            (fun flags =>
               for_each (test_mult_case fuel test_a test_b flags)
                        [(1, 1); (-1, 1); (1, -1); (-1, -1)])
            [(false, false); (true, true); (false, true); (true, false)] ;;
  Done (List.concat rows).

(** ** Further predicates on operation sequences *)

Definition is_div_init (o : op) : bool :=
  match o with
  | DivInit _ _ _ _ => true
  | _ => false
  end.

Definition is_div_step (o : op) : bool :=
  match o with
  | DivStep => true
  | _ => false
  end.

(** Two runs that end the same way, with related results. *)
Definition outcome_rel {A : Type} (R : A -> A -> Prop) (o1 o2 : outcome A)
  : Prop :=
  match o1, o2 with
  | Done x, Done y => R x y
  | Raise e1, Raise e2 => e1 = e2
  | OutOfFuel, OutOfFuel => True
  | _, _ => False
  end.

(** Engines that agree on the registers a divide uses. *)
Definition same_div_regs (s t : multdiv) : Prop :=
  accumulator s = accumulator t /\ stage s = stage t /\ divisor s = divisor t.

(** Engines that agree on the registers a multiply uses. *)
Definition same_mul_regs (s t : multdiv) : Prop :=
  accumulator s = accumulator t /\ stage s = stage t /\
  multiplier s = multiplier t /\ multiplicand s = multiplicand t.

(** * Concrete vectors *)

Example multiply_4_5 : multiply 8 4 5 false false = Done 20.
Proof. reflexivity. Qed.

Example multiply_big : multiply 8 0x40000000 5 false false = Done 0x140000000.
Proof. reflexivity. Qed.

(** * Arithmetic reading of the masks and bit tests *)

Section Bits.

Lemma mask64_mod (x : Z) : Z.land x mask64 = x mod 2 ^ 64.
Proof. exact (Z.land_ones x 64 ltac:(lia)). Qed.

Lemma mask32_mod (x : Z) : Z.land x mask32 = x mod 2 ^ 32.
Proof. exact (Z.land_ones x 32 ltac:(lia)). Qed.

Lemma mask31_mod (x : Z) : Z.land x mask31 = x mod 2 ^ 31.
Proof. exact (Z.land_ones x 31 ltac:(lia)). Qed.

Lemma land_3_mod (x : Z) : Z.land x 3 = x mod 4.
Proof. exact (Z.land_ones x 2 ltac:(lia)). Qed.

Lemma land_15_mod (x : Z) : Z.land x 15 = x mod 16.
Proof. exact (Z.land_ones x 4 ltac:(lia)). Qed.

(** Masking with a single bit keeps that bit and nothing else. *)
Lemma land_pow2_testbit (x n : Z) :
  0 <= n -> Z.land x (2 ^ n) = if Z.testbit x n then 2 ^ n else 0.
Proof.
  intros Hn. apply Z.bits_inj'. intros m Hm.
  rewrite Z.land_spec, Z.pow2_bits_eqb by lia.
  destruct (Z.eqb_spec n m) as [->|Hne].
  - rewrite andb_true_r. destruct (Z.testbit x m) eqn:E.
    + now rewrite Z.pow2_bits_true.
    + now rewrite Z.bits_0.
  - rewrite andb_false_r. destruct (Z.testbit x n).
    + now rewrite Z.pow2_bits_false.
    + now rewrite Z.bits_0.
Qed.

Lemma land_pow2 (x n : Z) :
  0 <= n -> Z.land x (2 ^ n) = 2 ^ n * ((x / 2 ^ n) mod 2).
Proof.
  intros Hn. rewrite land_pow2_testbit by assumption.
  destruct (Z.testbit x n) eqn:E.
  - apply Z.testbit_true in E; [|assumption]. rewrite E. lia.
  - apply Z.testbit_false in E; [|assumption]. rewrite E. lia.
Qed.

(** The sign test of the source, on any integer: bit 31 is clear exactly
    when the low 32 bits are below [2^31]. *)
Lemma sign_bit_clear (x : Z) :
  (Z.land x sign_bit =? 0) = (x mod 2 ^ 32 <? 2 ^ 31).
Proof.
  change sign_bit with (2 ^ 31). rewrite land_pow2 by lia.
  change (2 ^ 32) with (2 ^ 31 * 2). rewrite Z.rem_mul_r by lia.
  pose proof (Z.mod_pos_bound x (2 ^ 31) ltac:(lia)).
  pose proof (Z.mod_pos_bound (x / 2 ^ 31) 2 ltac:(lia)).
  destruct (Z.eqb_spec (2 ^ 31 * ((x / 2 ^ 31) mod 2)) 0);
    destruct (Z.ltb_spec (x mod 2 ^ 31 + 2 ^ 31 * ((x / 2 ^ 31) mod 2)) (2 ^ 31));
    try reflexivity; lia.
Qed.

Lemma top_bit_clear (x : Z) :
  (Z.land x (Z.shiftl sign_bit 32) =? 0) = (x mod 2 ^ 64 <? 2 ^ 63).
Proof.
  change (Z.shiftl sign_bit 32) with (2 ^ 63). rewrite land_pow2 by lia.
  change (2 ^ 64) with (2 ^ 63 * 2). rewrite Z.rem_mul_r by lia.
  pose proof (Z.mod_pos_bound x (2 ^ 63) ltac:(lia)).
  pose proof (Z.mod_pos_bound (x / 2 ^ 63) 2 ltac:(lia)).
  destruct (Z.eqb_spec (2 ^ 63 * ((x / 2 ^ 63) mod 2)) 0);
    destruct (Z.ltb_spec (x mod 2 ^ 63 + 2 ^ 63 * ((x / 2 ^ 63) mod 2)) (2 ^ 63));
    try reflexivity; lia.
Qed.

End Bits.

(** * The combinational stage *)

Section Combinational.

Lemma mux4_select (sel x0 x1 x2 x3 : Z) :
  0 <= sel < 4 ->
  mux4 sel x0 x1 x2 x3 =
  Done (if sel =? 0 then x0 else if sel =? 1 then x1
        else if sel =? 2 then x2 else x3).
Proof.
  intros H.
  assert (sel = 0 \/ sel = 1 \/ sel = 2 \/ sel = 3) as [->|[->|[->| ->]]] by lia;
    reflexivity.
Qed.

(** Radix-4 digit decoding: the two selected multiples add up to the
    low four bits of the selector times the operand. *)
Lemma stage2_digit (mult4 areg : Z) :
  stage2 mult4 areg = Done (Z.land mult4 15 * areg).
Proof.
  unfold stage2. rewrite !land_3_mod, land_15_mod.
  rewrite Z.shiftr_div_pow2, !Z.shiftl_mul_pow2 by lia.
  change (2 ^ 2) with 4. change (2 ^ 1) with 2.
  change 16 with (4 * 4). rewrite Z.rem_mul_r by lia.
  pose proof (Z.mod_pos_bound mult4 4 ltac:(lia)) as H0.
  pose proof (Z.mod_pos_bound (mult4 / 4) 4 ltac:(lia)) as H1.
  rewrite !mux4_select by assumption. cbn [bind]. f_equal.
  set (lo := mult4 mod 4) in *. set (hi := (mult4 / 4) mod 4) in *.
  assert (lo = 0 \/ lo = 1 \/ lo = 2 \/ lo = 3) as [->|[->|[->| ->]]] by lia;
    assert (hi = 0 \/ hi = 1 \/ hi = 2 \/ hi = 3) as [->|[->|[->| ->]]] by lia;
    cbn [Z.eqb Pos.eqb]; lia.
Qed.

Lemma combinatorial_spec (mult4 areg : Z) (subtract_acc : bool) (acc shift : Z) :
  0 <= shift ->
  combinatorial mult4 areg subtract_acc acc shift =
  Done (if subtract_acc
        then (Z.land mult4 15 * areg * 2 ^ shift - acc) mod 2 ^ 64
        else (Z.land mult4 15 * areg * 2 ^ shift + acc) mod 2 ^ 64).
Proof.
  intros Hs. unfold combinatorial. rewrite stage2_digit. cbn [bind].
  unfold py_shl. destruct (Z.ltb_spec shift 0); [lia|]. cbn [bind].
  rewrite Z.shiftl_mul_pow2 by assumption.
  destruct subtract_acc; now rewrite mask64_mod.
Qed.

Lemma combinatorial_negative_shift (mult4 areg : Z) (subtract_acc : bool)
  (acc shift : Z) :
  shift < 0 -> combinatorial mult4 areg subtract_acc acc shift = Raise ValueError.
Proof.
  intros Hs. unfold combinatorial. rewrite stage2_digit. cbn [bind].
  unfold py_shl. destruct (Z.ltb_spec shift 0); [reflexivity|lia].
Qed.

End Combinational.

(** * The multiply controller *)

Section Multiply.

Lemma mul_step_spec (self : multdiv) :
  0 <= stage self ->
  mul_step self =
  Done ({| accumulator :=
             if stage self =? 0
             then (multiplier self mod 16 * multiplicand self
                   * 16 ^ stage self - accumulator self) mod 2 ^ 64
             else (multiplier self mod 16 * multiplicand self
                   * 16 ^ stage self + accumulator self) mod 2 ^ 64;
           multiplier := multiplier self / 16;
           multiplicand := multiplicand self;
           stage := stage self + 1;
           divisor := divisor self |},
        multiplier self / 16 =? 0).
Proof.
  intros Hs. unfold mul_step.
  rewrite combinatorial_spec by lia. cbn [bind].
  unfold set_multiplier, set_stage, set_accumulator.
  cbn [accumulator multiplier multiplicand stage divisor].
  rewrite Z.shiftr_div_pow2 by lia. change (2 ^ 4) with 16.
  rewrite !land_15_mod, Z.mod_mod by lia.
  replace (2 ^ (stage self * 4)) with (16 ^ stage self)
    by (rewrite (Z.mul_comm (stage self)), Z.pow_mul_r by lia; reflexivity).
  destruct (stage self =? 0); reflexivity.
Qed.

Lemma sign_bit_set (x : Z) :
  negb (Z.land x sign_bit =? 0) = (2 ^ 31 <=? x mod 2 ^ 32).
Proof.
  rewrite sign_bit_clear.
  destruct (Z.ltb_spec (x mod 2 ^ 32) (2 ^ 31));
    destruct (Z.leb_spec (2 ^ 31) (x mod 2 ^ 32)); try reflexivity; lia.
Qed.

Lemma mul_init_spec (a b : Z) (sa sb : bool) (self : multdiv) :
  mul_init a b sa sb self =
  Done {| accumulator := bias a b sa sb;
          multiplier := a mod 2 ^ 32;
          multiplicand := b mod 2 ^ 32;
          stage := 0;
          divisor := divisor self |}.
Proof.
  unfold mul_init. rewrite combinatorial_spec by lia. cbn [bind].
  unfold set_multiplier, set_multiplicand, set_stage, set_accumulator.
  cbn [accumulator multiplier multiplicand stage divisor].
  rewrite !sign_bit_set, !mask32_mod, mask64_mod.
  rewrite Z.mod_mod by lia. f_equal. f_equal.
  unfold bias. cbv zeta.
  assert (Hhi : Z.land (Z.shiftl (b mod 2 ^ 32) 32) (Z.shiftl mask31 32)
                = (b mod 2 ^ 32) mod 2 ^ 31 * 2 ^ 32).
  { rewrite <- Z.shiftl_land, mask31_mod, Z.shiftl_mul_pow2 by lia.
    reflexivity. }
  rewrite Hhi, mask31_mod, Z.shiftl_mul_pow2 by lia.
  change (Z.land 1 15) with 1. f_equal.
  destruct (sa && _), (sb && _), sa, sb; lia.
Qed.

Lemma mul_step_first (A B acc0 : Z) (dv : option Z) :
  exists s',
    mul_step {| accumulator := acc0; multiplier := A; multiplicand := B;
                stage := 0; divisor := dv |} = Done (s', A / 16 =? 0) /\
    divisor s' = dv /\
    mul_inv A B acc0 1 s'.
Proof.
  eexists. split; [|split].
  - rewrite mul_step_spec by (cbn; lia). cbn. reflexivity.
  - reflexivity.
  - repeat split; cbn; try reflexivity. f_equal. lia.
Qed.

Lemma mul_step_inv (A B acc0 k : Z) (s : multdiv) :
  1 <= k -> mul_inv A B acc0 k s ->
  exists s',
    mul_step s = Done (s', A / 16 ^ (k + 1) =? 0) /\
    divisor s' = divisor s /\
    mul_inv A B acc0 (k + 1) s'.
Proof.
  intros Hk (Hst & Hm & Hb & Hacc).
  assert (Hpow : 16 ^ (k + 1) = 16 ^ k * 16)
    by (rewrite Z.pow_add_r by lia; reflexivity).
  assert (Hpos : 0 < 16 ^ k) by (apply Z.pow_pos_nonneg; lia).
  assert (Hdiv : A / 16 ^ k / 16 = A / 16 ^ (k + 1))
    by (rewrite Hpow, Z.div_div by lia; reflexivity).
  rewrite mul_step_spec by lia.
  rewrite Hst, Hm, Hb, Hacc, Hdiv.
  destruct (Z.eqb_spec k 0) as [|_]; [lia|].
  eexists. split; [reflexivity|]. split; [reflexivity|].
  unfold mul_inv. cbn [accumulator multiplier multiplicand stage].
  repeat split.
  rewrite Zplus_mod_idemp_r, Hpow, Z.rem_mul_r by lia. f_equal. lia.
Qed.

(** The driver loop from a state reached after [k >= 1] steps: it stops
    within the nibbles that are left, with the whole product (less the
    bias) in the accumulator. *)
Lemma mul_run_inv (A B acc0 : Z) (fuel : nat) :
  forall (k : Z) (s : multdiv),
    1 <= k -> 0 <= A < 16 ^ (k + 1 + Z.of_nat fuel) ->
    mul_inv A B acc0 k s ->
    exists s',
      mul_run (S fuel) s = Done s' /\
      accumulator s' = (A * B - acc0) mod 2 ^ 64 /\
      multiplier s' = 0 /\ 1 <= stage s' /\ divisor s' = divisor s.
Proof.
  induction fuel as [|fuel IH]; intros k s Hk HA Hinv.
  - destruct (mul_step_inv A B acc0 k s Hk Hinv) as (s' & Hstep & Hdv & Hinv').
    change (Z.of_nat 0) with 0 in HA. rewrite Z.add_0_r in HA.
    assert (HA0 : A / 16 ^ (k + 1) = 0) by (apply Z.div_small; exact HA).
    cbn [mul_run]. rewrite Hstep, HA0. cbn.
    destruct Hinv' as (Hst & Hm & _ & Hacc).
    exists s'. repeat split; try lia; try congruence.
    rewrite Hacc, (Z.mod_small A) by exact HA.
    reflexivity.
  - destruct (mul_step_inv A B acc0 k s Hk Hinv) as (s' & Hstep & Hdv & Hinv').
    change (mul_run (S (S fuel)) s)
      with (r <- mul_step s ;; if snd r then Done (fst r)
                               else mul_run (S fuel) (fst r)).
    rewrite Hstep. cbn [bind fst snd].
    destruct (Z.eqb_spec (A / 16 ^ (k + 1)) 0) as [HA0|HA0].
    + destruct Hinv' as (Hst & Hm & _ & Hacc).
      exists s'. repeat split; try lia; try congruence.
      rewrite Hacc, (Z.mod_small A); [reflexivity|].
      apply Z.div_small_iff in HA0; [|apply Z.pow_nonzero; lia].
      assert (0 < 16 ^ (k + 1)) by (apply Z.pow_pos_nonneg; lia). lia.
    + destruct (IH (k + 1) s') as (s'' & Hrun & Hres); try lia; [|assumption|].
      * replace (k + 1 + 1 + Z.of_nat fuel)
          with (k + 1 + Z.of_nat (S fuel)) by lia. exact HA.
      * exists s''. rewrite Hrun. repeat split; try apply Hres.
        rewrite <- Hdv. apply Hres.
Qed.

(** A whole multiply, from any prior register contents. *)
Lemma mul_init_run (a b : Z) (sa sb : bool) (n : nat) (self : multdiv) :
  exists s,
    (x <- mul_init a b sa sb self ;; mul_run (8 + n) x) = Done s /\
    accumulator s = (a mod 2 ^ 32 * (b mod 2 ^ 32) - bias a b sa sb) mod 2 ^ 64 /\
    multiplier s = 0 /\ 1 <= stage s /\ divisor s = divisor self.
Proof.
  rewrite mul_init_spec. cbn [bind].
  set (A := a mod 2 ^ 32). set (B := b mod 2 ^ 32). set (acc0 := bias a b sa sb).
  assert (HA : 0 <= A < 2 ^ 32) by (apply Z.mod_pos_bound; lia).
  destruct (mul_step_first A B acc0 (divisor self)) as (s1 & Hstep & Hdv & Hinv).
  change (mul_run (8 + n) ?s)
    with (r <- mul_step s ;; if snd r then Done (fst r)
                             else mul_run (S (6 + n)) (fst r)).
  rewrite Hstep. cbn [bind fst snd].
  destruct (Z.eqb_spec (A / 16) 0) as [HA0|HA0].
  - destruct Hinv as (Hst & Hm & _ & Hacc).
    change (16 ^ 1) with 16 in *.
    exists s1. repeat split; try lia; try congruence.
    rewrite Hacc, (Z.mod_small A); [reflexivity|].
    apply Z.div_small_iff in HA0; lia.
  - destruct (mul_run_inv A B acc0 (6 + n) 1 s1) as (s2 & Hrun & Hres);
      try lia; [|assumption|].
    + split; [lia|]. apply Z.lt_le_trans with (2 ^ 32); [lia|].
      change (2 ^ 32) with (16 ^ 8).
      apply Z.pow_le_mono_r; lia.
    + exists s2. rewrite Hrun. repeat split; try apply Hres.
      rewrite <- Hdv. apply Hres.
Qed.

Lemma multiply_spec (a b : Z) (sa sb : bool) (n : nat) :
  multiply (8 + n) a b sa sb =
  Done ((a mod 2 ^ 32 * (b mod 2 ^ 32) - bias a b sa sb) mod 2 ^ 64).
Proof.
  unfold multiply.
  destruct (mul_init_run a b sa sb n init) as (s & Hrun & Hacc & _).
  destruct (mul_init a b sa sb init) as [x| |]; cbn [bind] in *; try discriminate.
  rewrite Hrun. cbn [bind]. now rewrite Hacc.
Qed.

Lemma signed32_spec (a : Z) :
  signed32 a =
  if 2 ^ 31 <=? a mod 2 ^ 32 then a mod 2 ^ 32 - 2 ^ 32 else a mod 2 ^ 32.
Proof.
  unfold signed32. cbv zeta.
  rewrite sign_bit_set, mask32_mod, Z.mod_mod by lia. reflexivity.
Qed.

End Multiply.

Section SignedProducts.

Variables a b : Z.

Lemma operand_bounds :
  0 <= a mod 2 ^ 32 < 2 ^ 32 /\ 0 <= b mod 2 ^ 32 < 2 ^ 32.
Proof. split; apply Z.mod_pos_bound; lia. Qed.

Lemma low31_of_negative (x : Z) :
  2 ^ 31 <= x < 2 ^ 32 -> x mod 2 ^ 31 = x - 2 ^ 31.
Proof.
  intros H. symmetry. apply (Z.mod_unique_pos x (2 ^ 31) 1); lia.
Qed.

Lemma bias_unsigned : bias a b false false = 0.
Proof. reflexivity. Qed.

Lemma product_signed_a :
  (a mod 2 ^ 32 * (b mod 2 ^ 32) - bias a b true false) mod 2 ^ 64
  = (signed32 a * (b mod 2 ^ 32)) mod 2 ^ 64.
Proof.
  destruct operand_bounds as [HA HB].
  unfold bias. cbv zeta. rewrite signed32_spec.
  set (A := a mod 2 ^ 32) in *. set (B := b mod 2 ^ 32) in *.
  cbn [andb]. rewrite Zminus_mod_idemp_r.
  destruct (Z.leb_spec (2 ^ 31) A); f_equal; lia.
Qed.

Lemma product_signed_b :
  (a mod 2 ^ 32 * (b mod 2 ^ 32) - bias a b false true) mod 2 ^ 64
  = (a mod 2 ^ 32 * signed32 b) mod 2 ^ 64.
Proof.
  destruct operand_bounds as [HA HB].
  unfold bias. cbv zeta. rewrite signed32_spec.
  set (A := a mod 2 ^ 32) in *. set (B := b mod 2 ^ 32) in *.
  cbn [andb]. rewrite Zminus_mod_idemp_r.
  destruct (Z.leb_spec (2 ^ 31) B); f_equal; lia.
Qed.

Lemma product_signed_both :
  (a mod 2 ^ 32 * (b mod 2 ^ 32) - bias a b true true) mod 2 ^ 64
  = (signed32 a * signed32 b) mod 2 ^ 64.
Proof.
  destruct operand_bounds as [HA HB].
  unfold bias. cbv zeta. rewrite !signed32_spec.
  set (A := a mod 2 ^ 32) in *. set (B := b mod 2 ^ 32) in *.
  cbn [andb]. rewrite Zminus_mod_idemp_r.
  destruct (Z.leb_spec (2 ^ 31) A), (Z.leb_spec (2 ^ 31) B);
    rewrite ?low31_of_negative by lia;
    rewrite ?(Z.mod_small A (2 ^ 31)), ?(Z.mod_small B (2 ^ 31)) by lia;
    f_equal; lia.
Qed.

End SignedProducts.

(** * Multiply: results *)

(** C1.  Unsigned multiply: for all integers [a] and [b] (in particular
    all 32-bit ones) and any prior register contents, [mul_init] with
    both sign flags false followed by [mul_step] until it returns true
    finishes within 8 iterations and leaves the accumulator equal to
    [(a mod 2^32) * (b mod 2^32)] reduced modulo [2^64]. *)
Theorem mul_unsigned_product (a b : Z) (n : nat) (self : multdiv) :
  exists s,
    (x <- mul_init a b false false self ;; mul_run (8 + n) x) = Done s /\
    accumulator s = (a mod 2 ^ 32 * (b mod 2 ^ 32)) mod 2 ^ 64.
Proof.
  destruct (mul_init_run a b false false n self) as (s & Hrun & Hacc & _).
  exists s. split; [exact Hrun|].
  rewrite Hacc, bias_unsigned. f_equal. lia.
Qed.

(** C3.  Signed multiply: run to completion, the accumulator is the
    64-bit two's-complement encoding of [signed32 a * signed32 b] when
    both flags are set, and with one flag set it is, modulo [2^64], the
    product of the flagged operand read as signed and the other read as
    unsigned. *)
Theorem mul_signed_product (a b : Z) (n : nat) (self : multdiv) :
  (exists s,
     (x <- mul_init a b true true self ;; mul_run (8 + n) x) = Done s /\
     accumulator s = (signed32 a * signed32 b) mod 2 ^ 64) /\
  (exists s,
     (x <- mul_init a b true false self ;; mul_run (8 + n) x) = Done s /\
     accumulator s = (signed32 a * (b mod 2 ^ 32)) mod 2 ^ 64) /\
  (exists s,
     (x <- mul_init a b false true self ;; mul_run (8 + n) x) = Done s /\
     accumulator s = (a mod 2 ^ 32 * signed32 b) mod 2 ^ 64).
Proof.
  repeat split.
  - destruct (mul_init_run a b true true n self) as (s & Hrun & Hacc & _).
    exists s. split; [exact Hrun|].
    rewrite Hacc. apply product_signed_both.
  - destruct (mul_init_run a b true false n self) as (s & Hrun & Hacc & _).
    exists s. split; [exact Hrun|].
    rewrite Hacc. apply product_signed_a.
  - destruct (mul_init_run a b false true n self) as (s & Hrun & Hacc & _).
    exists s. split; [exact Hrun|].
    rewrite Hacc. apply product_signed_b.
Qed.

Example multiply_neg3_neg5 : multiply 8 (-3) (-5) true true = Done 15.
Proof. reflexivity. Qed.

Example multiply_neg3_5 : multiply 8 (-3) 5 true true = Done (2 ^ 64 - 15).
Proof. reflexivity. Qed.

(** * Multiply: step count *)

Section StepCount.

(** The values returned by [n] consecutive calls of [mul_step]: call [j]
    reports whether the multiplier is exhausted after [j] nibbles. *)
Lemma mul_steps_returns (n : nat) :
  forall s : multdiv,
    0 <= stage s ->
    exists s',
      steps mul_step n s =
        Done (s', map (fun j => multiplier s / 16 ^ Z.of_nat j =? 0) (seq 1 n)) /\
      stage s' = stage s + Z.of_nat n /\
      multiplier s' = multiplier s / 16 ^ Z.of_nat n.
Proof.
  induction n as [|n IH]; intros s Hs.
  - exists s. cbn. rewrite Z.div_1_r. repeat split; lia.
  - cbn [steps]. rewrite mul_step_spec by assumption. cbn [bind fst snd].
    match goal with |- context [steps mul_step n ?s1] =>
      set (x := s1); destruct (IH x) as (s' & Hrun & Hst & Hm); [cbn; lia|] end.
    assert (Hdd : forall j : nat,
               multiplier x / 16 ^ Z.of_nat j
               = multiplier s / 16 ^ Z.of_nat (S j)).
    { intros j. unfold x. cbn [multiplier].
      rewrite Z.div_div by (try apply Z.pow_pos_nonneg; lia).
      f_equal. rewrite Nat2Z.inj_succ, Z.pow_succ_r by lia. reflexivity. }
    exists s'. rewrite Hrun. cbn [bind fst snd]. repeat split.
    + f_equal. f_equal. cbn [seq map]. f_equal.
      rewrite <- (seq_shift n 1), map_map.
      apply map_ext. intros j. now rewrite Hdd.
    + rewrite Hst. unfold x. cbn [stage]. lia.
    + rewrite Hm. apply Hdd.
Qed.

End StepCount.

(** * The divide controller *)

Section Divide.

Lemma normalize_divisor_eq (fuel : nat) (self : multdiv) (d : Z) :
  divisor self = Some d ->
  normalize_divisor fuel self =
  if d mod 2 ^ 32 <? 2 ^ 31
  then match fuel with
       | O => OutOfFuel
       | S fuel' => normalize_divisor fuel' (shift_divisor self d)
       end
  else Done self.
Proof.
  intros Hd. rewrite <- sign_bit_clear.
  destruct fuel; cbn [normalize_divisor]; unfold get_divisor; rewrite Hd;
    reflexivity.
Qed.

Lemma normalize_accumulator_eq (fuel : nat) (self : multdiv) :
  normalize_accumulator fuel self =
  if accumulator self mod 2 ^ 64 <? 2 ^ 63
  then match fuel with
       | O => OutOfFuel
       | S fuel' => normalize_accumulator fuel' (shift_accumulator self)
       end
  else Done self.
Proof.
  rewrite <- top_bit_clear. destruct fuel; reflexivity.
Qed.

(** A nonzero 32-bit divisor is normalized within 31 shifts; the loop
    touches the divisor and the stage only. *)
Lemma normalize_divisor_terminates (fuel : nat) :
  forall (self : multdiv) (d : Z),
    divisor self = Some d ->
    0 < d < 2 ^ 32 -> 2 ^ 31 <= d * 2 ^ Z.of_nat fuel ->
    exists s' d',
      normalize_divisor fuel self = Done s' /\
      divisor s' = Some d' /\ 2 ^ 31 <= d' < 2 ^ 32 /\
      accumulator s' = accumulator self /\
      multiplier s' = multiplier self /\
      multiplicand s' = multiplicand self.
Proof.
  induction fuel as [|fuel IH]; intros self d Hd Hr Hf;
    rewrite (normalize_divisor_eq _ _ _ Hd), Z.mod_small by lia;
    destruct (Z.ltb_spec d (2 ^ 31)) as [Hlt|Hge];
    try (exists self, d; repeat split; (assumption || lia)).
  - destruct (IH (shift_divisor self d) (Z.shiftl d 1))
      as (s' & d' & Hrun & Hres); try reflexivity;
      rewrite ?Z.shiftl_mul_pow2 by lia; try lia.
    + rewrite Nat2Z.inj_succ, Z.pow_succ_r in Hf by lia. lia.
    + exists s', d'. split; [exact Hrun|]. exact Hres.
Qed.

(** A nonzero dividend in the high word is normalized within 31 shifts;
    the loop touches the accumulator and the stage only. *)
Lemma normalize_accumulator_terminates (fuel : nat) :
  forall self : multdiv,
    0 < accumulator self < 2 ^ 64 ->
    2 ^ 63 <= accumulator self * 2 ^ Z.of_nat fuel ->
    exists s',
      normalize_accumulator fuel self = Done s' /\
      2 ^ 63 <= accumulator s' < 2 ^ 64 /\
      divisor s' = divisor self /\
      multiplier s' = multiplier self /\
      multiplicand s' = multiplicand self.
Proof.
  induction fuel as [|fuel IH]; intros self Hr Hf;
    rewrite normalize_accumulator_eq, Z.mod_small by lia;
    destruct (Z.ltb_spec (accumulator self) (2 ^ 63)) as [Hlt|Hge];
    try (exists self; repeat split; (assumption || lia)).
  - destruct (IH (shift_accumulator self)) as (s' & Hrun & Hres);
      cbn [shift_accumulator set_stage set_accumulator accumulator];
      rewrite ?Z.shiftl_mul_pow2 by lia; try lia.
    + rewrite Nat2Z.inj_succ, Z.pow_succ_r in Hf by lia. lia.
    + exists s'. split; [exact Hrun|]. exact Hres.
Qed.

(** With no bit to find, either loop spins for as long as it is run. *)
Lemma normalize_divisor_zero (fuel : nat) :
  forall self : multdiv,
    divisor self = Some 0 -> normalize_divisor fuel self = OutOfFuel.
Proof.
  induction fuel as [|fuel IH]; intros self Hd;
    rewrite (normalize_divisor_eq _ _ _ Hd); [reflexivity|].
  apply IH. reflexivity.
Qed.

Lemma normalize_accumulator_zero (fuel : nat) :
  forall self : multdiv,
    accumulator self = 0 -> normalize_accumulator fuel self = OutOfFuel.
Proof.
  induction fuel as [|fuel IH]; intros self Ha;
    rewrite normalize_accumulator_eq, Ha; [reflexivity|].
  apply IH. cbn. now rewrite Ha.
Qed.

(** Whenever the divisor loop does finish, it leaves a normalized 32-bit
    divisor and has written nothing but the divisor and the stage. *)
Lemma normalize_divisor_done (fuel : nat) :
  forall (self s' : multdiv) (d : Z),
    divisor self = Some d -> 0 <= d < 2 ^ 32 ->
    normalize_divisor fuel self = Done s' ->
    exists d',
      divisor s' = Some d' /\ 2 ^ 31 <= d' < 2 ^ 32 /\
      accumulator s' = accumulator self /\
      multiplier s' = multiplier self /\
      multiplicand s' = multiplicand self.
Proof.
  induction fuel as [|fuel IH]; intros self s' d Hd Hr;
    rewrite (normalize_divisor_eq _ _ _ Hd), Z.mod_small by lia;
    destruct (Z.ltb_spec d (2 ^ 31)) as [Hlt|Hge]; try discriminate;
    try (intros [= <-]; exists d; repeat split; (assumption || lia)).
  intros Hrun.
  apply (IH _ _ (Z.shiftl d 1)) in Hrun; [exact Hrun|reflexivity|].
  rewrite Z.shiftl_mul_pow2 by lia. lia.
Qed.

(** Likewise for the accumulator loop. *)
Lemma normalize_accumulator_done (fuel : nat) :
  forall self s' : multdiv,
    0 <= accumulator self < 2 ^ 64 ->
    normalize_accumulator fuel self = Done s' ->
    2 ^ 63 <= accumulator s' < 2 ^ 64 /\
    divisor s' = divisor self /\
    multiplier s' = multiplier self /\
    multiplicand s' = multiplicand self.
Proof.
  induction fuel as [|fuel IH]; intros self s' Hr;
    rewrite normalize_accumulator_eq, Z.mod_small by lia;
    destruct (Z.ltb_spec (accumulator self) (2 ^ 63)) as [Hlt|Hge];
    try discriminate;
    try (intros [= <-]; repeat split; (assumption || lia)).
  intros Hrun. apply IH in Hrun; [exact Hrun|].
  cbn [shift_accumulator set_stage set_accumulator accumulator].
  rewrite Z.shiftl_mul_pow2 by lia. lia.
Qed.

Lemma div_init_eq (fuel : nat) (a b : Z) (signed : bool) (self : multdiv) :
  div_init fuel a b signed self =
  (x <- normalize_divisor fuel (div_init_loaded a b self) ;;
   normalize_accumulator fuel x).
Proof. reflexivity. Qed.

Lemma div_init_loaded_regs (a b : Z) (self : multdiv) :
  divisor (div_init_loaded a b self) = Some (b mod 2 ^ 32) /\
  accumulator (div_init_loaded a b self) = a mod 2 ^ 32 * 2 ^ 32 /\
  multiplier (div_init_loaded a b self) = multiplier self /\
  multiplicand (div_init_loaded a b self) = multiplicand self.
Proof.
  unfold div_init_loaded, set_accumulator, set_stage, set_divisor.
  cbn [accumulator multiplier multiplicand stage divisor].
  rewrite !mask32_mod, Z.shiftl_mul_pow2 by lia. repeat split.
Qed.

(** With both operands nonzero in their low 32 bits, 31 turns of each
    loop are enough, and more fuel changes nothing about that. *)
Lemma div_init_terminates (n : nat) (a b : Z) (signed : bool) (self : multdiv) :
  a mod 2 ^ 32 <> 0 -> b mod 2 ^ 32 <> 0 ->
  exists s d,
    div_init (31 + n) a b signed self = Done s /\
    divisor s = Some d /\ 2 ^ 31 <= d < 2 ^ 32 /\
    2 ^ 63 <= accumulator s < 2 ^ 64 /\
    multiplier s = multiplier self /\ multiplicand s = multiplicand self.
Proof.
  intros Ha Hb. rewrite div_init_eq.
  destruct (div_init_loaded_regs a b self) as (Hd & Hacc & Hm & Hmc).
  pose proof (Z.mod_pos_bound a (2 ^ 32) ltac:(lia)) as HA.
  pose proof (Z.mod_pos_bound b (2 ^ 32) ltac:(lia)) as HB.
  assert (Hpow : 2 ^ 31 <= 2 ^ Z.of_nat (31 + n))
    by (apply Z.pow_le_mono_r; lia).
  destruct (normalize_divisor_terminates (31 + n) _ _ Hd)
    as (s1 & d1 & Hrun1 & Hd1 & Hr1 & Hacc1 & Hm1 & Hmc1); [lia|nia|].
  rewrite Hrun1. cbn [bind].
  destruct (normalize_accumulator_terminates (31 + n) s1)
    as (s2 & Hrun2 & Hr2 & Hd2 & Hm2 & Hmc2).
  - rewrite Hacc1, Hacc. lia.
  - rewrite Hacc1, Hacc. nia.
  - exists s2, d1. repeat split; try congruence; lia.
Qed.

(** A divisor whose low 32 bits are zero: the first loop never ends. *)
Lemma div_init_zero_divisor (fuel : nat) (a b : Z) (signed : bool)
  (self : multdiv) :
  b mod 2 ^ 32 = 0 -> div_init fuel a b signed self = OutOfFuel.
Proof.
  intros Hb. rewrite div_init_eq.
  destruct (div_init_loaded_regs a b self) as (Hd & _).
  rewrite Hb in Hd. now rewrite (normalize_divisor_zero _ _ Hd).
Qed.

(** A dividend whose low 32 bits are zero: whatever the divisor, the
    second loop never ends. *)
Lemma div_init_zero_dividend (fuel : nat) (a b : Z) (signed : bool)
  (self : multdiv) :
  a mod 2 ^ 32 = 0 -> div_init fuel a b signed self = OutOfFuel.
Proof.
  intros Ha. rewrite div_init_eq.
  destruct (div_init_loaded_regs a b self) as (Hd & Hacc & _).
  pose proof (Z.mod_pos_bound b (2 ^ 32) ltac:(lia)) as HB.
  destruct (normalize_divisor fuel (div_init_loaded a b self)) as [s1|e|] eqn:E;
    cbn [bind]; [| |reflexivity].
  - destruct (normalize_divisor_done _ _ _ _ Hd HB E) as (d1 & _ & _ & Hacc1 & _).
    apply normalize_accumulator_zero. rewrite Hacc1, Hacc, Ha. reflexivity.
  - exfalso. revert E. generalize (div_init_loaded a b self) (b mod 2 ^ 32) Hd.
    clear. induction fuel as [|fuel IH]; intros x d Hd;
      rewrite (normalize_divisor_eq _ _ _ Hd);
      destruct (d mod 2 ^ 32 <? 2 ^ 31); try discriminate.
    apply (IH _ (Z.shiftl d 1)). reflexivity.
Qed.

(** One divide step, spelled out.  The trial value comes back masked, so
    its comparison with zero always succeeds and the stage alone decides
    whether the accumulator is written. *)
Lemma div_step_spec (self : multdiv) (d : Z) :
  divisor self = Some d ->
  div_step self =
  Done ({| accumulator :=
             if 0 <=? stage self
             then - ((d * 2 ^ 32 - accumulator self) mod 2 ^ 64)
                  + 2 ^ stage self
             else accumulator self;
           multiplier := multiplier self;
           multiplicand := multiplicand self;
           stage := stage self - 1;
           divisor := Some (d / 2) |},
        stage self - 1 <? 0).
Proof.
  intros Hd. unfold div_step, get_divisor. rewrite Hd. cbn [bind].
  rewrite combinatorial_spec by lia. cbn [bind].
  change (Z.land 1 15) with 1. rewrite Z.mul_1_l.
  pose proof (Z.mod_pos_bound (d * 2 ^ 32 - accumulator self) (2 ^ 64)
                ltac:(lia)) as Hpos.
  destruct (Z.leb_spec 0 ((d * 2 ^ 32 - accumulator self) mod 2 ^ 64));
    [|lia].
  cbn [andb]. unfold py_shl.
  rewrite Z.shiftr_div_pow2 by lia. change (2 ^ 1) with 2.
  destruct (Z.leb_spec 0 (stage self)) as [Hs|Hs].
  - destruct (Z.ltb_spec (stage self) 0); [lia|]. cbn [bind].
    rewrite Z.shiftl_mul_pow2, Z.mul_1_l by lia.
    destruct self; reflexivity.
  - cbn [bind]. destruct self; reflexivity.
Qed.

End Divide.

(** * The combinational stage: result *)

(** C4 (as the code has it).  For a non-negative shift amount the two
    muxed partial products sum to [(mult4 & 15) * areg]; the result is
    that sum shifted left, plus the accumulator when the flag is clear,
    and with the accumulator subtracted from it (shifted sum minus
    accumulator) when the flag is set, masked to 64 bits. *)
Theorem combinatorial_value (mult4 areg : Z) (subtract_acc : bool)
  (acc shift : Z) :
  0 <= shift ->
  stage2 mult4 areg = Done (Z.land mult4 15 * areg) /\
  combinatorial mult4 areg subtract_acc acc shift =
  Done (if subtract_acc
        then Z.land (Z.shiftl (Z.land mult4 15 * areg) shift - acc) mask64
        else Z.land (Z.shiftl (Z.land mult4 15 * areg) shift + acc) mask64).
Proof.
  intros Hs. split; [apply stage2_digit|].
  rewrite combinatorial_spec by assumption.
  rewrite !mask64_mod, Z.shiftl_mul_pow2 by assumption. reflexivity.
Qed.

Lemma combinatorial_value_witness :
  0 <= 4 /\
  stage2 7 3 = Done 21 /\
  combinatorial 7 3 true 10 4 = Done 326.
Proof.
  split; [lia|]. exact (combinatorial_value 7 3 true 10 4 ltac:(lia)).
Defined.

(** C4 fails as worded: with the flag set the stage returns the shifted
    sum minus the accumulator, not the accumulator minus the shifted
    sum; and a negative shift amount raises instead of returning. *)
Lemma combinatorial_not_acc_minus_sum :
  combinatorial 1 1 true 0 0 = Done 1 /\
  combinatorial 1 1 true 0 0 <> Done (combinatorial_acc_minus_sum 1 1 true 0 0) /\
  combinatorial 1 1 false 0 (-1) = Raise ValueError.
Proof. repeat split. discriminate. Qed.

(** * Multiply: how many steps *)

(** C7 (as the code has it).  After [mul_init], call [k] of [mul_step]
    returns true exactly when the masked multiplier is below [16^k]; the
    eighth call therefore always returns true, and the first seven all
    return false exactly when the multiplier's top nibble is nonzero. *)
Theorem mul_step_count (a b : Z) (sa sb : bool) (self : multdiv) :
  (exists s,
     (x <- mul_init a b sa sb self ;; steps mul_step 8 x) =
     Done (s, map (fun k => Z.land a mask32 <? 16 ^ Z.of_nat k) (seq 1 8))) /\
  (Z.land a mask32 <? 16 ^ 8) = true /\
  (completes_in_exactly_8 a b sa sb self <-> 2 ^ 28 <= Z.land a mask32).
Proof.
  rewrite mask32_mod.
  pose proof (Z.mod_pos_bound a (2 ^ 32) ltac:(lia)) as HA.
  assert (Hex : exists s,
             (x <- mul_init a b sa sb self ;; steps mul_step 8 x) =
             Done (s, map (fun k => a mod 2 ^ 32 <? 16 ^ Z.of_nat k) (seq 1 8))).
  { rewrite mul_init_spec. cbn [bind].
    match goal with |- context [steps mul_step 8 ?x0] =>
      destruct (mul_steps_returns 8 x0) as (s & Hrun & _); [cbn; lia|];
      exists s; rewrite Hrun end.
    cbn [multiplier]. f_equal. f_equal. apply map_ext. intros k.
    assert (0 < 16 ^ Z.of_nat k) by (apply Z.pow_pos_nonneg; lia).
    destruct (Z.eqb_spec (a mod 2 ^ 32 / 16 ^ Z.of_nat k) 0) as [E|E];
      destruct (Z.ltb_spec (a mod 2 ^ 32) (16 ^ Z.of_nat k)) as [L|L];
      try reflexivity; exfalso.
    - apply Z.div_small_iff in E; lia.
    - apply E, Z.div_small. lia. }
  split; [exact Hex|]. split.
  - apply Z.ltb_lt. change (16 ^ 8) with (2 ^ 32). lia.
  - destruct Hex as (s & Hrun). unfold completes_in_exactly_8.
    rewrite Hrun. cbn [seq map].
    change (16 ^ Z.of_nat 1) with (2 ^ 4). change (16 ^ Z.of_nat 2) with (2 ^ 8).
    change (16 ^ Z.of_nat 3) with (2 ^ 12). change (16 ^ Z.of_nat 4) with (2 ^ 16).
    change (16 ^ Z.of_nat 5) with (2 ^ 20). change (16 ^ Z.of_nat 6) with (2 ^ 24).
    change (16 ^ Z.of_nat 7) with (2 ^ 28). change (16 ^ Z.of_nat 8) with (2 ^ 32).
    split.
    + intros (s' & [= _ H1 H2 H3 H4 H5 H6 H7 H8]).
      apply Z.ltb_ge in H7. exact H7.
    + intros H. exists s. repeat f_equal;
        try (apply Z.ltb_ge; lia); apply Z.ltb_lt; lia.
Qed.

(** C7 fails as worded: multiplying 4 by 5, the very first call of
    [mul_step] already returns true. *)
Lemma mul_completes_early : ~ completes_in_exactly_8 4 5 false false init.
Proof. intros (s & H). vm_compute in H. discriminate H. Qed.

(** * Multiply: steps after completion *)

Lemma mul_step_idle_once (s : multdiv) :
  multiplier s = 0 -> 1 <= stage s -> 0 <= accumulator s < 2 ^ 64 ->
  exists s',
    mul_step s = Done (s', true) /\
    accumulator s' = accumulator s /\
    multiplier s' = 0 /\ stage s' = stage s + 1.
Proof.
  intros Hm Hs Ha. rewrite mul_step_spec by lia.
  destruct (Z.eqb_spec (stage s) 0) as [|_]; [lia|].
  rewrite Hm. eexists. split; [reflexivity|].
  cbn [accumulator multiplier stage]. repeat split.
  change (0 mod 16) with 0. rewrite !Z.mul_0_l, Z.add_0_l.
  now apply Z.mod_small.
Qed.

Lemma mul_steps_idle (n : nat) :
  forall s : multdiv,
    multiplier s = 0 -> 1 <= stage s -> 0 <= accumulator s < 2 ^ 64 ->
    exists s',
      steps mul_step n s = Done (s', repeat true n) /\
      accumulator s' = accumulator s.
Proof.
  induction n as [|n IH]; intros s Hm Hs Ha.
  - exists s. split; reflexivity.
  - destruct (mul_step_idle_once s Hm Hs Ha) as (s1 & Hstep & Ha1 & Hm1 & Hs1).
    destruct (IH s1) as (s' & Hrun & Ha'); try lia.
    exists s'. cbn [steps]. rewrite Hstep. cbn [bind fst snd].
    rewrite Hrun. cbn [bind fst snd repeat]. split; [reflexivity|lia].
Qed.

(** X22.  In a state whose multiplier is zero, whose stage is at least
    1 and whose accumulator lies in [[0, 2^64)], any number of
    [mul_step] calls return true and leave the accumulator as it was; a
    multiply that has run to completion is in such a state, so further
    calls do not change the product. *)
Theorem mul_step_idle :
  (forall (s : multdiv) (m : nat),
      multiplier s = 0 -> 1 <= stage s -> 0 <= accumulator s < 2 ^ 64 ->
      exists s',
        steps mul_step m s = Done (s', repeat true m) /\
        accumulator s' = accumulator s) /\
  (forall (a b : Z) (sa sb : bool) (self : multdiv) (n m : nat),
      exists s s',
        (x <- mul_init a b sa sb self ;; mul_run (8 + n) x) = Done s /\
        steps mul_step m s = Done (s', repeat true m) /\
        accumulator s' = accumulator s).
Proof.
  split.
  - intros s m. apply mul_steps_idle.
  - intros a b sa sb self n m.
    destruct (mul_init_run a b sa sb n self) as (s & Hrun & Hacc & Hm & Hs & _).
    destruct (mul_steps_idle m s) as (s' & Hsteps & Ha'); try assumption.
    + rewrite Hacc. apply Z.mod_pos_bound. lia.
    + exists s, s'. repeat split; assumption.
Qed.

Lemma mul_step_idle_witness :
  let s := {| accumulator := 20; multiplier := 0; multiplicand := 5;
              stage := 1; divisor := None |} in
  multiplier s = 0 /\ 1 <= stage s /\ 0 <= accumulator s < 2 ^ 64 /\
  exists s',
    steps mul_step 3 s = Done (s', [true; true; true]) /\
    accumulator s' = 20.
Proof.
  intros s.
  split; [reflexivity|]. split; [cbn; lia|]. split; [cbn; lia|].
  apply (proj1 mul_step_idle s 3%nat); cbn; lia.
Defined.

(** C10 at a fresh engine after [div_init(12, 2)] and one [div_step]:
    the multiplier is zero and the stage is 1, yet [mul_step] changes
    the accumulator, because [div_step] left a value outside
    [[0, 2^64)] in it and [mul_step] stores it masked. *)
Lemma mul_step_masks_wide_accumulator :
  exists s,
    run_ops [DivInit 31 12 2 false; DivStep] init = Done s /\
    multiplier s = 0 /\ 1 <= stage s /\
    ~ mul_step_keeps_accumulator s.
Proof.
  eexists. split; [vm_compute; reflexivity|].
  split; [reflexivity|]. split; [cbn; lia|].
  intros (s' & r & Hstep & Hacc). vm_compute in Hstep.
  injection Hstep as <- _. discriminate Hacc.
Qed.

(** * Divide: results *)

(** C2 at the first vector of [test_div]: 4 divided by 5 gives
    quotient 1 and remainder [0xe0000000], where unsigned division
    gives 0 and 4. *)
Theorem divide_4_5 :
  divide 31 4 5 false = Done (1, 0xe0000000) /\
  (4 / 5, 4 mod 5) = (0, 4).
Proof. split; vm_compute; reflexivity. Qed.

Example divide_deadbeef :
  divide 31 0xdeadbeef 0x12345670 false = Done (15, 0xcd9cae5f) /\
  (0xdeadbeef / 0x12345670, 0xdeadbeef mod 0x12345670) = (12, 0x439b1af).
Proof. split; vm_compute; reflexivity. Qed.

(** C5 fails as worded: after [div_init(3, 2)] the trial subtraction
    has its top bit set and the stage is 0, and [div_step] overwrites
    the accumulator with the negated trial value plus [2^0] instead of
    leaving it unchanged. *)
Theorem div_step_stores_negative_trial :
  exists x d trial s',
    div_init 31 3 2 false init = Done x /\
    stage x = 0 /\
    divisor x = Some d /\
    combinatorial 1 d true (accumulator x) 32 = Done trial /\
    Z.testbit trial 63 = true /\
    div_step x = Done (s', true) /\
    accumulator s' = - trial + 2 ^ 0 /\
    accumulator s' <> accumulator x.
Proof.
  do 4 eexists.
  split; [vm_compute; reflexivity|].
  split; [reflexivity|]. split; [reflexivity|].
  split; [vm_compute; reflexivity|].
  split; [reflexivity|].
  split; [vm_compute; reflexivity|].
  split; [reflexivity|]. discriminate.
Qed.

(** C5 (as the code has it).  In every call of [div_step] on an engine
    whose divisor is set, the trial value is [(divisor << 32) -
    accumulator] masked to 64 bits, hence never negative; when the
    stage is at least 0 the accumulator becomes the negated trial value
    plus [2^stage], whether the trial's top bit is clear or set, and
    when the stage is negative the accumulator is left unchanged. *)
Theorem div_step_store_rule (self : multdiv) (d : Z) :
  divisor self = Some d ->
  exists trial s',
    combinatorial 1 d true (accumulator self) 32 = Done trial /\
    trial = Z.land (Z.shiftl d 32 - accumulator self) mask64 /\
    0 <= trial /\
    div_step self = Done (s', stage self - 1 <? 0) /\
    accumulator s' =
      (if 0 <=? stage self then - trial + 2 ^ stage self
       else accumulator self).
Proof.
  intros Hd.
  exists ((d * 2 ^ 32 - accumulator self) mod 2 ^ 64). eexists.
  split.
  - rewrite combinatorial_spec by lia.
    change (Z.land 1 15) with 1. now rewrite Z.mul_1_l.
  - split; [now rewrite mask64_mod, Z.shiftl_mul_pow2 by lia|].
    split; [apply Z.mod_pos_bound; lia|].
    split; [apply (div_step_spec _ _ Hd)|]. reflexivity.
Qed.

Lemma div_step_store_rule_witness :
  let x := {| accumulator := 0xc000000000000000; multiplier := 0;
              multiplicand := 0; stage := 0; divisor := Some 0x80000000 |} in
  divisor x = Some 0x80000000 /\
  exists trial s',
    combinatorial 1 0x80000000 true (accumulator x) 32 = Done trial /\
    trial = Z.land (Z.shiftl 0x80000000 32 - accumulator x) mask64 /\
    0 <= trial /\
    div_step x = Done (s', stage x - 1 <? 0) /\
    accumulator s' =
      (if 0 <=? stage x then - trial + 2 ^ stage x else accumulator x).
Proof.
  intros x. split; [reflexivity|].
  apply (div_step_store_rule x 0x80000000). reflexivity.
Defined.

(** * Register widths *)

(** C6 at [div_init(3, 2)] followed by one [div_step]: the accumulator
    is left negative, outside [[0, 2^64)]. *)
Theorem div_step_leaves_wide_accumulator :
  exists s,
    run_ops [DivInit 31 3 2 false; DivStep] init = Done s /\
    accumulator s = -13835058055282163711 /\
    ~ registers_in_range s.
Proof.
  eexists. split; [vm_compute; reflexivity|]. split; [reflexivity|].
  intros [[H _] _]. cbn in H. lia.
Qed.

(** The three narrow registers do stay within 32 bits, whatever is
    called and in whatever order. *)
Lemma apply_op_narrow (o : op) (s s' : multdiv) :
  narrow_in_range s -> apply_op o s = Done s' -> narrow_in_range s'.
Proof.
  intros (Hm & Hmc & Hd). destruct o as [a b sa sb| |fuel a b signed|];
    cbn [apply_op].
  - rewrite mul_init_spec. intros [= <-].
    split; [|split; [|exact Hd]]; cbn [multiplier multiplicand];
      apply Z.mod_pos_bound; lia.
  - destruct (Z.ltb_spec (stage s) 0) as [Hneg|Hpos].
    + unfold mul_step. rewrite combinatorial_negative_shift by lia. discriminate.
    + rewrite mul_step_spec by assumption. cbn [bind fst]. intros [= <-].
      split; [|split; [exact Hmc|exact Hd]].
      cbn [multiplier]. split.
      * apply Z.div_pos; lia.
      * apply Z.div_lt_upper_bound; lia.
  - rewrite div_init_eq.
    destruct (div_init_loaded_regs a b s) as (Hd0 & Hacc0 & Hm0 & Hmc0).
    pose proof (Z.mod_pos_bound a (2 ^ 32) ltac:(lia)) as HA.
    pose proof (Z.mod_pos_bound b (2 ^ 32) ltac:(lia)) as HB.
    destruct (normalize_divisor fuel (div_init_loaded a b s)) as [s1|e|] eqn:E;
      cbn [bind]; try discriminate.
    destruct (normalize_divisor_done _ _ _ _ Hd0 HB E)
      as (d1 & Hd1 & Hr1 & Hacc1 & Hm1 & Hmc1).
    intros E2. apply normalize_accumulator_done in E2; [|lia].
    destruct E2 as (_ & Hd2 & Hm2 & Hmc2).
    split; [lia|]. split; [lia|].
    intros d Hdd. assert (d = d1) by congruence. lia.
  - destruct (divisor s) as [d|] eqn:Ed.
    + rewrite (div_step_spec _ _ Ed). cbn [bind fst]. intros [= <-].
      pose proof (Hd d eq_refl) as Hr.
      split; [exact Hm|]. split; [exact Hmc|].
      cbn [divisor]. intros d' [= <-]. split.
      * apply Z.div_pos; lia.
      * apply Z.div_lt_upper_bound; lia.
    + unfold div_step, get_divisor. rewrite Ed. discriminate.
Qed.

Lemma run_ops_narrow (ops : list op) :
  forall s s' : multdiv,
    narrow_in_range s -> run_ops ops s = Done s' -> narrow_in_range s'.
Proof.
  induction ops as [|o ops IH]; intros s s' Hs; cbn [run_ops].
  - now intros [= <-].
  - destruct (apply_op o s) as [x|e|] eqn:E; cbn [bind]; try discriminate.
    apply IH. exact (apply_op_narrow _ _ _ Hs E).
Qed.

(** Every operation but [div_step] leaves a 64-bit accumulator behind. *)
Lemma apply_op_accumulator (o : op) (s s' : multdiv) :
  o <> DivStep -> apply_op o s = Done s' -> accumulator_in_range s'.
Proof.
  unfold accumulator_in_range.
  destruct o as [a b sa sb| |fuel a b signed|]; cbn [apply_op]; intros Ho;
    [| | |contradiction].
  - rewrite mul_init_spec. intros [= <-]. cbn [accumulator].
    unfold bias. cbv zeta. apply Z.mod_pos_bound. lia.
  - destruct (Z.ltb_spec (stage s) 0) as [Hneg|Hpos].
    + unfold mul_step. rewrite combinatorial_negative_shift by lia. discriminate.
    + rewrite mul_step_spec by assumption. cbn [bind fst]. intros [= <-].
      cbn [accumulator]. destruct (stage s =? 0); apply Z.mod_pos_bound; lia.
  - rewrite div_init_eq.
    destruct (div_init_loaded_regs a b s) as (Hd0 & Hacc0 & _).
    pose proof (Z.mod_pos_bound a (2 ^ 32) ltac:(lia)) as HA.
    pose proof (Z.mod_pos_bound b (2 ^ 32) ltac:(lia)) as HB.
    destruct (normalize_divisor fuel (div_init_loaded a b s)) as [s1|e|] eqn:E;
      cbn [bind]; try discriminate.
    destruct (normalize_divisor_done _ _ _ _ Hd0 HB E) as (d1 & _ & _ & Hacc1 & _).
    intros E2. apply normalize_accumulator_done in E2; [|lia].
    destruct E2 as (Hr & _). lia.
Qed.

(** * Divide: initialisation *)

(** C8 at a zero dividend: [div_init(0, 1)] has a nonzero divisor and
    still never returns, however long it is run; its second loop keeps
    shifting an accumulator that is zero. *)
Theorem div_init_zero_dividend_spins :
  Z.land 1 mask32 <> 0 /\
  forall (fuel : nat) (signed : bool) (self : multdiv),
    div_init fuel 0 1 signed self = OutOfFuel.
Proof.
  split; [discriminate|]. intros fuel signed self.
  apply div_init_zero_dividend. reflexivity.
Qed.

(** * Divide: the [signed] parameter *)

(** C9.  The [signed] argument of [div_init], [div_result] and
    [div_remainder] is never read: both settings give the same
    registers after [div_init], the same return values and accumulators
    over any number of [div_step] calls, and the same quotient and
    remainder. *)
Theorem div_ignores_signed (fuel n : nat) (a b : Z) (self : multdiv) :
  div_init fuel a b true self = div_init fuel a b false self /\
  (x <- div_init fuel a b true self ;; div_observe n x) =
  (x <- div_init fuel a b false self ;; div_observe n x) /\
  (x <- div_init fuel a b true self ;; div_run fuel x) =
  (x <- div_init fuel a b false self ;; div_run fuel x) /\
  (forall x : multdiv,
      div_result x a b true = div_result x a b false /\
      div_remainder x a b true = div_remainder x a b false) /\
  divide fuel a b true = divide fuel a b false.
Proof. repeat split. Qed.

(** * Further properties of the combinational stage *)

Section CombinationalEdges.

(** X1.  [combinatorial] has exactly two outcomes: a negative shift
    amount raises [ValueError]; otherwise it returns a value in
    [[0, 2^64)].  In particular the mux outputs are always bound. *)
Theorem combinatorial_outcomes (mult4 areg : Z) (subtract_acc : bool)
  (acc shift : Z) :
  (shift < 0 /\
   combinatorial mult4 areg subtract_acc acc shift = Raise ValueError) \/
  (0 <= shift /\
   exists v, combinatorial mult4 areg subtract_acc acc shift = Done v /\
             0 <= v < 2 ^ 64).
Proof.
  destruct (Z.lt_ge_cases shift 0) as [Hneg|Hpos].
  - left. split; [assumption|]. now apply combinatorial_negative_shift.
  - right. split; [assumption|].
    rewrite combinatorial_spec by assumption.
    eexists. split; [reflexivity|].
    destruct subtract_acc; apply Z.mod_pos_bound; lia.
Qed.

(** X2.  Only the low four bits of the selector and the low 64 bits of
    the accumulator input reach the result. *)
Theorem combinatorial_low_bits (mult4 areg : Z) (subtract_acc : bool)
  (acc shift : Z) :
  combinatorial mult4 areg subtract_acc acc shift =
  combinatorial (Z.land mult4 15) areg subtract_acc (Z.land acc mask64) shift.
Proof.
  destruct (Z.lt_ge_cases shift 0) as [Hneg|Hpos].
  - now rewrite !combinatorial_negative_shift.
  - rewrite !combinatorial_spec by assumption.
    rewrite mask64_mod, !land_15_mod, Z.mod_mod by lia.
    destruct subtract_acc.
    + now rewrite Zminus_mod_idemp_r.
    + now rewrite Zplus_mod_idemp_r.
Qed.

End CombinationalEdges.

(** * Further properties of the multiply controller *)

Section MultiplyMore.

Lemma signed32_mod (a : Z) : signed32 a mod 2 ^ 32 = a mod 2 ^ 32.
Proof.
  rewrite signed32_spec.
  destruct (2 ^ 31 <=? a mod 2 ^ 32).
  - rewrite <- (Z_mod_plus_full (a mod 2 ^ 32 - 2 ^ 32) 1 (2 ^ 32)).
    replace (a mod 2 ^ 32 - 2 ^ 32 + 1 * 2 ^ 32) with (a mod 2 ^ 32) by lia.
    apply Z.mod_mod. lia.
  - apply Z.mod_mod. lia.
Qed.

Lemma mul_init_low32 (a a' b b' : Z) (sa sb : bool) (self : multdiv) :
  a mod 2 ^ 32 = a' mod 2 ^ 32 -> b mod 2 ^ 32 = b' mod 2 ^ 32 ->
  mul_init a b sa sb self = mul_init a' b' sa sb self.
Proof.
  intros Ha Hb. rewrite !mul_init_spec. unfold bias. cbv zeta.
  now rewrite Ha, Hb.
Qed.

(** X3.  [mul_init] never raises and reads its operands through their
    low 32 bits only: passing an operand raw, masked, or as the signed
    value the driver builds gives the same registers.  It resets the
    stage to 0, leaves the divisor as it was and stores a 64-bit
    accumulator. *)
Theorem mul_init_masks_operands (a b : Z) (sa sb : bool) (self : multdiv) :
  mul_init a b sa sb self =
    mul_init (Z.land a mask32) (Z.land b mask32) sa sb self /\
  mul_init a b sa sb self = mul_init (signed32 a) (signed32 b) sa sb self /\
  exists x,
    mul_init a b sa sb self = Done x /\
    multiplier x = Z.land a mask32 /\
    multiplicand x = Z.land b mask32 /\
    stage x = 0 /\
    divisor x = divisor self /\
    0 <= accumulator x < 2 ^ 64.
Proof.
  split; [|split].
  - apply mul_init_low32; rewrite mask32_mod, Z.mod_mod by lia; reflexivity.
  - apply mul_init_low32; now rewrite signed32_mod.
  - rewrite mul_init_spec, !mask32_mod. eexists. split; [reflexivity|].
    cbn [multiplier multiplicand stage divisor accumulator].
    repeat split; unfold bias; cbv zeta; apply Z.mod_pos_bound; lia.
Qed.

Lemma mul_steps_inv (A B acc0 : Z) (n : nat) :
  forall (k : Z) (s : multdiv),
    1 <= k -> mul_inv A B acc0 k s ->
    exists s' rs,
      steps mul_step n s = Done (s', rs) /\
      mul_inv A B acc0 (k + Z.of_nat n) s'.
Proof.
  induction n as [|n IH]; intros k s Hk Hinv.
  - exists s, []. split; [reflexivity|]. now rewrite Z.add_0_r.
  - destruct (mul_step_inv A B acc0 k s Hk Hinv) as (s1 & Hstep & _ & Hinv1).
    destruct (IH (k + 1) s1) as (s' & rs & Hrun & Hinv'); [lia|assumption|].
    exists s'. eexists. cbn [steps]. rewrite Hstep. cbn [bind fst snd].
    rewrite Hrun. cbn [bind fst snd]. split; [reflexivity|].
    replace (k + Z.of_nat (S n)) with (k + 1 + Z.of_nat n) by lia.
    exact Hinv'.
Qed.

(** X4.  The accumulator between steps: after [k >= 1] calls of
    [mul_step] (whether or not one has already returned true) it holds,
    modulo [2^64], the multiplicand times the low [4k] bits of the
    multiplier, less what [mul_init] left in the accumulator; the
    multiplier register holds the bits not yet consumed and the stage
    is [k]. *)
Theorem mul_partial_product (a b : Z) (sa sb : bool) (self : multdiv) (k : nat) :
  exists x0 s rs,
    mul_init a b sa sb self = Done x0 /\
    steps mul_step (S k) x0 = Done (s, rs) /\
    accumulator s =
      (Z.land a mask32 mod 16 ^ Z.of_nat (S k) * Z.land b mask32
       - accumulator x0) mod 2 ^ 64 /\
    multiplier s = Z.shiftr (Z.land a mask32) (4 * Z.of_nat (S k)) /\
    stage s = Z.of_nat (S k).
Proof.
  rewrite mul_init_spec, !mask32_mod.
  set (A := a mod 2 ^ 32). set (B := b mod 2 ^ 32). set (acc0 := bias a b sa sb).
  destruct (mul_step_first A B acc0 (divisor self)) as (s1 & Hstep & _ & Hinv1).
  destruct (mul_steps_inv A B acc0 k 1 s1) as (s & rs & Hrun & Hinv);
    [lia|assumption|].
  eexists. exists s. eexists. split; [reflexivity|].
  cbn [steps]. rewrite Hstep. cbn [bind fst snd]. rewrite Hrun.
  cbn [bind fst snd accumulator]. split; [reflexivity|].
  destruct Hinv as (Hst & Hm & _ & Hacc).
  replace (Z.of_nat (S k)) with (1 + Z.of_nat k) by lia.
  repeat split; try assumption.
  rewrite Hm, Z.shiftr_div_pow2 by lia. f_equal.
  rewrite Z.pow_mul_r by lia. reflexivity.
Qed.

Lemma bias_swap (a b : Z) (sa sb : bool) : bias a b sa sb = bias b a sb sa.
Proof.
  unfold bias. cbv zeta. f_equal.
  destruct sa, sb, (2 ^ 31 <=? a mod 2 ^ 32), (2 ^ 31 <=? b mod 2 ^ 32);
    cbn [andb]; lia.
Qed.

(** X5.  Swapping the two operands together with their sign flags does
    not change the product, although the number of steps taken follows
    the first operand. *)
Theorem multiply_swap (a b : Z) (sa sb : bool) (n : nat) :
  multiply (8 + n) a b sa sb = multiply (8 + n) b a sb sa.
Proof.
  rewrite !multiply_spec, bias_swap. do 2 f_equal. lia.
Qed.

(** X6.  With a negative stage counter [mul_step] raises [ValueError]
    before it writes anything; that is the state every finished divide
    leaves, so a [mul_step] issued after a divide without a [mul_init]
    in between fails. *)
Theorem mul_step_after_divide (fuel : nat) (x s : multdiv) :
  div_run fuel x = Done s ->
  stage s < 0 /\ mul_step s = Raise ValueError.
Proof.
  intros Hrun.
  assert (Hs : stage s < 0).
  { revert x Hrun. induction fuel as [|fuel IH]; intros x; cbn [div_run];
      [discriminate|].
    destruct (div_step x) as [[x1 r]| |] eqn:E; cbn [bind fst snd];
      try discriminate.
    destruct r; [|apply IH].
    intros [= <-]. unfold div_step in E.
    destruct (get_divisor x) as [d| |]; cbn [bind] in E; try discriminate.
    destruct (combinatorial 1 d true (accumulator x) 32) as [t| |];
      cbn [bind] in E; try discriminate.
    match type of E with
    | context [bind ?c _] => destruct c as [y| |]; cbn [bind] in E;
                             try discriminate
    end.
    injection E as <- Hr. apply Z.ltb_lt. exact Hr. }
  split; [exact Hs|].
  unfold mul_step. rewrite combinatorial_negative_shift by lia. reflexivity.
Qed.

Lemma mul_step_after_divide_witness :
  let x := {| accumulator := 2 ^ 63 + 2 ^ 62; multiplier := 0;
              multiplicand := 0; stage := 0; divisor := Some (2 ^ 31) |} in
  exists s, div_run 1 x = Done s /\ stage s < 0 /\
            mul_step s = Raise ValueError.
Proof.
  intros x. eexists. split; [vm_compute; reflexivity|].
  apply (mul_step_after_divide 1 x). vm_compute. reflexivity.
Defined.

End MultiplyMore.

(** * Further properties of the divide controller *)

Section DivideMore.

Lemma apply_op_keeps_no_divisor (o : op) (x s : multdiv) :
  is_div_init o = false -> divisor x = None ->
  apply_op o x = Done s -> divisor s = None.
Proof.
  intros Ho Hd. destruct o as [a b sa sb| |fuel a b signed|];
    cbn [apply_op]; try discriminate Ho.
  - rewrite mul_init_spec. now intros [= <-].
  - destruct (Z.ltb_spec (stage x) 0) as [Hneg|Hpos].
    + unfold mul_step. rewrite combinatorial_negative_shift by lia. discriminate.
    + rewrite mul_step_spec by assumption. cbn [bind fst]. now intros [= <-].
  - unfold div_step, get_divisor. rewrite Hd. discriminate.
Qed.

(** X7.  The divisor register does not exist until [div_init] has run:
    after any sequence of other operations on a fresh engine that
    returns, [div_step] raises [AttributeError]. *)
Theorem div_step_needs_div_init (ops : list op) (s : multdiv) :
  forallb (fun o => negb (is_div_init o)) ops = true ->
  run_ops ops init = Done s ->
  divisor s = None /\ div_step s = Raise AttributeError.
Proof.
  intros Hops Hrun.
  assert (Hd : divisor s = None).
  { revert Hops Hrun. generalize init (eq_refl : divisor init = None).
    induction ops as [|o ops IH]; intros x Hx Hops; cbn [run_ops].
    - now intros [= <-].
    - cbn [forallb] in Hops. apply andb_prop in Hops as [Ho Hops].
      apply negb_true_iff in Ho.
      destruct (apply_op o x) as [x1| |] eqn:E; cbn [bind]; try discriminate.
      apply IH; [|assumption].
      exact (apply_op_keeps_no_divisor _ _ _ Ho Hx E). }
  split; [exact Hd|]. unfold div_step, get_divisor. now rewrite Hd.
Qed.

Lemma div_step_needs_div_init_witness :
  let ops := [MulInit 4 5 false false; MulStep; MulStep] in
  exists s, run_ops ops init = Done s /\
            divisor s = None /\ div_step s = Raise AttributeError.
Proof.
  intros ops. eexists. split; [vm_compute; reflexivity|].
  apply (div_step_needs_div_init ops); vm_compute; reflexivity.
Defined.

(** The divisor loop in closed form: the shift count is the number of
    leading zeros of the 32-bit divisor. *)
Lemma normalize_divisor_closed (fuel : nat) :
  forall (self : multdiv) (d : Z),
    divisor self = Some d -> 0 < d < 2 ^ 32 ->
    31 - Z.log2 d <= Z.of_nat fuel ->
    normalize_divisor fuel self =
    Done {| accumulator := accumulator self;
            multiplier := multiplier self;
            multiplicand := multiplicand self;
            stage := stage self + (31 - Z.log2 d);
            divisor := Some (d * 2 ^ (31 - Z.log2 d)) |}.
Proof.
  induction fuel as [|fuel IH]; intros self d Hd Hr Hf;
    rewrite (normalize_divisor_eq _ _ _ Hd), Z.mod_small by lia;
    destruct (Z.ltb_spec d (2 ^ 31)) as [Hlt|Hge].
  - apply Z.log2_lt_pow2 in Hlt; lia.
  - rewrite (Z.log2_unique d 31) by lia.
    destruct self; cbn in *. subst. do 2 f_equal; [lia|f_equal; lia].
  - assert (Hl : Z.log2 d < 31) by (apply Z.log2_lt_pow2; lia).
    pose proof (Z.log2_nonneg d) as Hl0.
    assert (Hl2 : Z.log2 (Z.shiftl d 1) = Z.log2 d + 1).
    { rewrite Z.shiftl_mul_pow2, Z.mul_comm by lia. change (2 ^ 1) with 2.
      rewrite Z.log2_double by lia. lia. }
    rewrite (IH (shift_divisor self d) (Z.shiftl d 1)); try reflexivity.
    + rewrite Hl2. cbn [shift_divisor set_stage set_divisor accumulator
                        multiplier multiplicand stage].
      do 2 f_equal; [lia|]. f_equal.
      rewrite Z.shiftl_mul_pow2 by lia. change (2 ^ 1) with 2.
      replace (31 - Z.log2 d) with (Z.succ (31 - (Z.log2 d + 1))) by lia.
      rewrite Z.pow_succ_r by lia. lia.
    + rewrite Z.shiftl_mul_pow2 by lia. lia.
    + rewrite Hl2. lia.
  - rewrite (Z.log2_unique d 31) by lia.
    destruct self; cbn in *. subst. do 2 f_equal; [lia|f_equal; lia].
Qed.

(** The accumulator loop in closed form. *)
Lemma normalize_accumulator_closed (fuel : nat) :
  forall self : multdiv,
    0 < accumulator self < 2 ^ 64 ->
    63 - Z.log2 (accumulator self) <= Z.of_nat fuel ->
    normalize_accumulator fuel self =
    Done {| accumulator :=
              accumulator self * 2 ^ (63 - Z.log2 (accumulator self));
            multiplier := multiplier self;
            multiplicand := multiplicand self;
            stage := stage self - (63 - Z.log2 (accumulator self));
            divisor := divisor self |}.
Proof.
  induction fuel as [|fuel IH]; intros self Hr Hf;
    rewrite normalize_accumulator_eq, Z.mod_small by lia;
    destruct (Z.ltb_spec (accumulator self) (2 ^ 63)) as [Hlt|Hge].
  - apply Z.log2_lt_pow2 in Hlt; lia.
  - rewrite (Z.log2_unique (accumulator self) 63) by lia.
    destruct self; cbn in *. do 2 f_equal; lia.
  - assert (Hl : Z.log2 (accumulator self) < 63) by (apply Z.log2_lt_pow2; lia).
    pose proof (Z.log2_nonneg (accumulator self)) as Hl0.
    assert (Hl2 : Z.log2 (Z.shiftl (accumulator self) 1)
                  = Z.log2 (accumulator self) + 1).
    { rewrite Z.shiftl_mul_pow2, Z.mul_comm by lia. change (2 ^ 1) with 2.
      rewrite Z.log2_double by lia. lia. }
    rewrite (IH (shift_accumulator self));
      cbn [shift_accumulator set_stage set_accumulator accumulator
           multiplier multiplicand stage divisor].
    + rewrite Hl2. do 2 f_equal; [|lia].
      rewrite Z.shiftl_mul_pow2 by lia. change (2 ^ 1) with 2.
      replace (63 - Z.log2 (accumulator self))
        with (Z.succ (63 - (Z.log2 (accumulator self) + 1))) by lia.
      rewrite Z.pow_succ_r by lia. lia.
    + rewrite Z.shiftl_mul_pow2 by lia. lia.
    + rewrite Hl2. lia.
  - rewrite (Z.log2_unique (accumulator self) 63) by lia.
    destruct self; cbn in *. do 2 f_equal; lia.
Qed.

Lemma div_init_closed (n : nat) (a b : Z) (signed : bool) (self : multdiv) :
  a mod 2 ^ 32 <> 0 -> b mod 2 ^ 32 <> 0 ->
  div_init (31 + n) a b signed self =
  Done {| accumulator := a mod 2 ^ 32 * 2 ^ (63 - Z.log2 (a mod 2 ^ 32));
          multiplier := multiplier self;
          multiplicand := multiplicand self;
          stage := Z.log2 (a mod 2 ^ 32) - Z.log2 (b mod 2 ^ 32);
          divisor :=
            Some (b mod 2 ^ 32 * 2 ^ (31 - Z.log2 (b mod 2 ^ 32))) |}.
Proof.
  intros Ha Hb. rewrite div_init_eq.
  destruct (div_init_loaded_regs a b self) as (Hd & Hacc & Hm & Hmc).
  pose proof (Z.mod_pos_bound a (2 ^ 32) ltac:(lia)) as HA.
  pose proof (Z.mod_pos_bound b (2 ^ 32) ltac:(lia)) as HB.
  set (A := a mod 2 ^ 32) in *. set (B := b mod 2 ^ 32) in *.
  pose proof (Z.log2_nonneg A) as HlA. pose proof (Z.log2_nonneg B) as HlB.
  assert (HlA' : Z.log2 A < 32) by (apply Z.log2_lt_pow2; lia).
  rewrite (normalize_divisor_closed _ _ _ Hd) by lia. cbn [bind].
  assert (Hl : Z.log2 (A * 2 ^ 32) = 32 + Z.log2 A)
    by (apply Z.log2_mul_pow2; lia).
  rewrite normalize_accumulator_closed;
    cbn [accumulator multiplier multiplicand stage divisor];
    rewrite Hacc, ?Hl; try lia.
  - rewrite Hm, Hmc. do 2 f_equal.
    + replace (63 - Z.log2 A) with (32 + (63 - (32 + Z.log2 A))) by lia.
      rewrite (Z.pow_add_r 2 32) by lia. lia.
    + unfold div_init_loaded, set_accumulator, set_stage. cbn [stage]. lia.
Qed.

(** X8.  What [div_init] leaves when both operands are nonzero in their
    low 32 bits: the divisor shifted left until bit 31 is set, the
    dividend shifted left (from the high word) until bit 63 is set, and
    a stage equal to the difference of the operands' bit lengths; the
    multiplier and multiplicand are not touched.  31 turns of each loop
    always suffice. *)
Theorem div_init_normalizes (n : nat) (a b : Z) (signed : bool)
  (self : multdiv) :
  Z.land a mask32 <> 0 -> Z.land b mask32 <> 0 ->
  div_init (31 + n) a b signed self =
  Done {| accumulator :=
            Z.shiftl (Z.land a mask32) (63 - Z.log2 (Z.land a mask32));
          multiplier := multiplier self;
          multiplicand := multiplicand self;
          stage := Z.log2 (Z.land a mask32) - Z.log2 (Z.land b mask32);
          divisor :=
            Some (Z.shiftl (Z.land b mask32)
                           (31 - Z.log2 (Z.land b mask32))) |}.
Proof.
  rewrite !mask32_mod. intros Ha Hb.
  pose proof (Z.mod_pos_bound a (2 ^ 32) ltac:(lia)) as HA.
  pose proof (Z.mod_pos_bound b (2 ^ 32) ltac:(lia)) as HB.
  assert (Z.log2 (a mod 2 ^ 32) < 32) by (apply Z.log2_lt_pow2; lia).
  assert (Z.log2 (b mod 2 ^ 32) < 32) by (apply Z.log2_lt_pow2; lia).
  rewrite !Z.shiftl_mul_pow2 by lia.
  now apply div_init_closed.
Qed.

Lemma div_init_normalizes_witness :
  Z.land 12 mask32 <> 0 /\ Z.land 2 mask32 <> 0 /\
  div_init 31 12 2 false init =
  Done {| accumulator := 0xc000000000000000; multiplier := 0;
          multiplicand := 0; stage := 2; divisor := Some 0x80000000 |}.
Proof.
  split; [discriminate|]. split; [discriminate|].
  apply (div_init_normalizes 0 12 2 false init); discriminate.
Defined.

(** X9.  [div_init] never returns when the low 32 bits of the dividend
    or of the divisor are zero, whatever the other operand is. *)
Theorem div_init_zero_operand (fuel : nat) (a b : Z) (signed : bool)
  (self : multdiv) :
  Z.land a mask32 = 0 \/ Z.land b mask32 = 0 ->
  div_init fuel a b signed self = OutOfFuel.
Proof.
  rewrite !mask32_mod. intros [Ha|Hb].
  - now apply div_init_zero_dividend.
  - now apply div_init_zero_divisor.
Qed.

Lemma div_init_zero_operand_witness :
  (Z.land (2 ^ 32) mask32 = 0 \/ Z.land 7 mask32 = 0) /\
  div_init 100 (2 ^ 32) 7 false init = OutOfFuel.
Proof.
  split; [left; reflexivity|].
  apply (div_init_zero_operand 100 (2 ^ 32) 7 false init). left. reflexivity.
Defined.

End DivideMore.

(** * Divide: stepping and results *)

Section DivideResults.

Lemma div_step_count_run (k : nat) :
  forall (s : multdiv) (d : Z),
    divisor s = Some d -> stage s = Z.of_nat k ->
    exists s',
      steps div_step (S k) s = Done (s', repeat false k ++ [true]) /\
      (forall n, div_run (S k + n) s = Done s') /\
      stage s' = -1 /\
      divisor s' = Some (d / 2 ^ Z.of_nat (S k)) /\
      multiplier s' = multiplier s /\
      multiplicand s' = multiplicand s.
Proof.
  induction k as [|k IH]; intros s d Hd Hs.
  - eexists. cbn [steps div_run Nat.add]. rewrite (div_step_spec _ _ Hd), Hs.
    cbn [bind fst snd repeat app]. repeat split.
  - change (steps div_step (S (S k)) s)
      with (r <- div_step s ;;
            rest <- steps div_step (S k) (fst r) ;;
            Done (fst rest, snd r :: snd rest)).
    rewrite (div_step_spec _ _ Hd). cbn [bind fst snd].
    match goal with |- context [steps div_step (S k) ?x] =>
      set (s1 := x) end.
    destruct (IH s1 (d / 2)) as (s' & Hsteps & Hrun & Hst & Hdv & Hm & Hmc);
      [reflexivity|unfold s1; cbn [stage]; lia|].
    exists s'. rewrite Hsteps. cbn [bind fst snd].
    assert (Hfalse : (stage s - 1 <? 0) = false) by (apply Z.ltb_ge; lia).
    rewrite Hfalse. repeat split; try assumption.
    + intros n. change (S (S k) + n)%nat with (S (S k + n)).
      cbn [div_run]. rewrite (div_step_spec _ _ Hd). cbn [bind fst snd].
      rewrite Hfalse. apply Hrun.
    + rewrite Hdv. f_equal.
      rewrite Z.div_div by (try apply Z.pow_pos_nonneg; lia). f_equal.
      rewrite (Nat2Z.inj_succ (S k)), Z.pow_succ_r by lia. reflexivity.
Qed.

(** X10.  From a state whose divisor is set and whose stage is
    [k >= 0], [div_step] returns false [k] times and true on call
    [k + 1]; the driver loop stops there with stage [-1], the divisor
    shifted right [k + 1] places, and multiplier and multiplicand as
    they were. *)
Theorem div_step_count (k : nat) (s : multdiv) (d : Z) :
  divisor s = Some d -> stage s = Z.of_nat k ->
  exists s',
    steps div_step (S k) s = Done (s', repeat false k ++ [true]) /\
    (forall n, div_run (S k + n) s = Done s') /\
    stage s' = -1 /\
    divisor s' = Some (Z.shiftr d (Z.of_nat (S k))) /\
    multiplier s' = multiplier s /\
    multiplicand s' = multiplicand s.
Proof.
  intros Hd Hs. rewrite Z.shiftr_div_pow2 by lia.
  now apply div_step_count_run.
Qed.

Lemma div_step_count_witness :
  let s := {| accumulator := 0xc000000000000000; multiplier := 7;
              multiplicand := 9; stage := 2; divisor := Some 0x80000000 |} in
  divisor s = Some 0x80000000 /\ stage s = Z.of_nat 2 /\
  exists s',
    steps div_step 3 s = Done (s', [false; false; true]) /\
    (forall n, div_run (3 + n) s = Done s') /\
    stage s' = -1 /\
    divisor s' = Some 0x10000000 /\
    multiplier s' = 7 /\ multiplicand s' = 9.
Proof.
  intros s. split; [reflexivity|]. split; [reflexivity|].
  apply (div_step_count 2 s 0x80000000); reflexivity.
Defined.

(** The registers [divide] reads after [div_init], for nonzero
    operands: an accumulator [qa * 2^32] with the normalized dividend
    [qa] in its high word. *)
Lemma normalized_dividend (A : Z) :
  0 < A < 2 ^ 32 ->
  2 ^ 31 <= A * 2 ^ (31 - Z.log2 A) < 2 ^ 32 /\
  A * 2 ^ (63 - Z.log2 A) = A * 2 ^ (31 - Z.log2 A) * 2 ^ 32.
Proof.
  intros HA.
  pose proof (Z.log2_nonneg A) as Hl0.
  assert (Hl : Z.log2 A < 32) by (apply Z.log2_lt_pow2; lia).
  destruct (Z.log2_spec A ltac:(lia)) as [Hlo Hhi].
  assert (Hp : 2 ^ Z.log2 A * 2 ^ (31 - Z.log2 A) = 2 ^ 31)
    by (rewrite <- Z.pow_add_r by lia; f_equal; lia).
  assert (Hp' : 2 ^ Z.succ (Z.log2 A) * 2 ^ (31 - Z.log2 A) = 2 ^ 32)
    by (rewrite <- Z.pow_add_r by lia; f_equal; lia).
  assert (Hpos : 0 < 2 ^ (31 - Z.log2 A)) by (apply Z.pow_pos_nonneg; lia).
  split; [split|].
  - rewrite <- Hp. apply Z.mul_le_mono_nonneg_r; lia.
  - rewrite <- Hp'. apply Z.mul_lt_mono_pos_r; lia.
  - replace (63 - Z.log2 A) with (31 - Z.log2 A + 32) by lia.
    rewrite Z.pow_add_r by lia. lia.
Qed.

(** A driver loop that stops at its first [div_step]: the state it
    returns is the one that step left, and the pair read back comes
    from it. *)
Lemma divide_single_step (fuel : nat) (a b : Z) (signed : bool)
  (x s' : multdiv) :
  div_init (S fuel) a b signed init = Done x ->
  div_step x = Done (s', true) ->
  div_run (S fuel) x = Done s' /\
  divide (S fuel) a b signed =
  Done (div_result s' a b signed, div_remainder s' a b signed).
Proof.
  intros Hi Hs. unfold divide. rewrite Hi. cbn [bind div_run].
  rewrite Hs. cbn [bind fst snd]. split; reflexivity.
Qed.

(** The pair read back for a dividend shorter than the divisor. *)
Lemma divide_shorter_dividend_pair (n : nat) (a b : Z) (signed : bool) :
  Z.land a mask32 <> 0 ->
  Z.log2 (Z.land a mask32) < Z.log2 (Z.land b mask32) ->
  divide (31 + n) a b signed =
  Done (0, Z.shiftl (Z.land a mask32) (31 - Z.log2 (Z.land a mask32))).
Proof.
  rewrite !mask32_mod. intros Ha Hlt.
  pose proof (Z.mod_pos_bound a (2 ^ 32) ltac:(lia)) as HA.
  assert (Hb : b mod 2 ^ 32 <> 0)
    by (intros E; rewrite E in Hlt; change (Z.log2 0) with 0 in Hlt;
        pose proof (Z.log2_nonneg (a mod 2 ^ 32)); lia).
  unfold divide. rewrite div_init_closed by assumption. cbn [bind].
  set (A := a mod 2 ^ 32) in *. set (B := b mod 2 ^ 32) in *.
  destruct (normalized_dividend A ltac:(lia)) as (Hq & Hacc).
  assert (Hl : Z.log2 A < 32) by (apply Z.log2_lt_pow2; lia).
  change (31 + n)%nat with (S (30 + n)). cbn [div_run].
  erewrite div_step_spec by reflexivity.
  cbn [bind fst snd accumulator stage].
  destruct (Z.leb_spec 0 (Z.log2 A - Z.log2 B)); [lia|].
  destruct (Z.ltb_spec (Z.log2 A - Z.log2 B - 1) 0); [|lia].
  cbn [bind]. unfold div_result, div_remainder. cbn [accumulator].
  rewrite !mask32_mod, Z.shiftr_div_pow2, Z.shiftl_mul_pow2 by lia.
  rewrite Hacc, Z.mod_mul, Z.div_mul, Z.mod_small by lia. reflexivity.
Qed.

(** X11.  A dividend shorter than the divisor (fewer significant bits):
    [div_init] leaves a negative stage, the first [div_step] already
    returns true and does not write the accumulator, the driver loop
    stops on that step, and the quotient read back is 0 and the
    remainder read back is the dividend shifted left until its bit 31
    is set. *)
Theorem divide_shorter_dividend (n : nat) (a b : Z) (signed : bool) :
  Z.land a mask32 <> 0 ->
  Z.log2 (Z.land a mask32) < Z.log2 (Z.land b mask32) ->
  exists x s',
    div_init (31 + n) a b signed init = Done x /\
    stage x < 0 /\
    div_step x = Done (s', true) /\
    accumulator s' = accumulator x /\
    div_run (31 + n) x = Done s' /\
    div_result s' a b signed = 0 /\
    div_remainder s' a b signed =
      Z.shiftl (Z.land a mask32) (31 - Z.log2 (Z.land a mask32)) /\
    divide (31 + n) a b signed =
      Done (0, Z.shiftl (Z.land a mask32) (31 - Z.log2 (Z.land a mask32))).
Proof.
  intros Ha Hlt.
  pose proof (divide_shorter_dividend_pair n a b signed Ha Hlt) as Hpair.
  rewrite mask32_mod in Ha. rewrite (mask32_mod a), (mask32_mod b) in Hlt.
  assert (Hb : b mod 2 ^ 32 <> 0)
    by (intros E; rewrite E in Hlt; change (Z.log2 0) with 0 in Hlt;
        pose proof (Z.log2_nonneg (a mod 2 ^ 32)); lia).
  pose proof (div_init_closed n a b signed init Ha Hb) as Hi.
  destruct (div_init (31 + n) a b signed init) as [x| |] eqn:Ex;
    try discriminate Hi.
  injection Hi as Hx.
  assert (Hst : stage x = Z.log2 (a mod 2 ^ 32) - Z.log2 (b mod 2 ^ 32))
    by (rewrite Hx; reflexivity).
  assert (Hd : divisor x =
               Some (b mod 2 ^ 32 * 2 ^ (31 - Z.log2 (b mod 2 ^ 32))))
    by (rewrite Hx; reflexivity).
  pose proof (div_step_spec x _ Hd) as Hstep.
  destruct (Z.leb_spec 0 (stage x)) as [|_]; [lia|].
  destruct (Z.ltb_spec (stage x - 1) 0) as [_|]; [|lia].
  destruct (divide_single_step (30 + n) a b signed x _ Ex Hstep)
    as (Hrun & Hdiv).
  change (S (30 + n)) with (31 + n)%nat in Hrun, Hdiv.
  rewrite Hpair in Hdiv. injection Hdiv as Hq Hr.
  eexists x, _. split; [reflexivity|]. split; [lia|].
  split; [exact Hstep|]. split; [reflexivity|]. split; [exact Hrun|].
  split; [now symmetry|]. split; [now symmetry|]. exact Hpair.
Qed.

Lemma divide_shorter_dividend_witness :
  Z.land 0x12345670 mask32 <> 0 /\
  Z.log2 (Z.land 0x12345670 mask32) < Z.log2 (Z.land 0xdeadbeef mask32) /\
  exists x s',
    div_init 31 0x12345670 0xdeadbeef false init = Done x /\
    stage x < 0 /\
    div_step x = Done (s', true) /\
    accumulator s' = accumulator x /\
    div_run 31 x = Done s' /\
    div_result s' 0x12345670 0xdeadbeef false = 0 /\
    div_remainder s' 0x12345670 0xdeadbeef false = 0x91a2b380 /\
    divide 31 0x12345670 0xdeadbeef false = Done (0, 0x91a2b380).
Proof.
  split; [discriminate|]. split; [reflexivity|].
  apply (divide_shorter_dividend 0 0x12345670 0xdeadbeef false);
    [discriminate|reflexivity].
Defined.

Lemma divide_equal_log2 (n : nat) (a b : Z) (signed : bool) :
  a mod 2 ^ 32 <> 0 -> b mod 2 ^ 32 <> 0 ->
  Z.log2 (a mod 2 ^ 32) = Z.log2 (b mod 2 ^ 32) ->
  divide (31 + n) a b signed =
  Done (1, ((a mod 2 ^ 32 - b mod 2 ^ 32)
            * 2 ^ (31 - Z.log2 (b mod 2 ^ 32))) mod 2 ^ 32).
Proof.
  intros Ha Hb Hl.
  pose proof (Z.mod_pos_bound a (2 ^ 32) ltac:(lia)) as HA.
  pose proof (Z.mod_pos_bound b (2 ^ 32) ltac:(lia)) as HB.
  unfold divide. rewrite div_init_closed by assumption. cbn [bind].
  set (A := a mod 2 ^ 32) in *. set (B := b mod 2 ^ 32) in *.
  destruct (normalized_dividend A ltac:(lia)) as (_ & Hacc).
  assert (HlB : Z.log2 B < 32) by (apply Z.log2_lt_pow2; lia).
  pose proof (Z.log2_nonneg B) as HlB0.
  change (31 + n)%nat with (S (30 + n)). cbn [div_run].
  erewrite div_step_spec by reflexivity.
  cbn [bind fst snd accumulator stage].
  rewrite Hl, Z.sub_diag in *.
  change (0 <=? 0) with true. change (0 - 1 <? 0) with true. cbn [bind].
  unfold div_result, div_remainder. cbn [accumulator].
  rewrite !mask32_mod, Z.shiftr_div_pow2 by lia.
  rewrite Hacc. set (P := 2 ^ (31 - Z.log2 B)).
  replace (B * P * 2 ^ 32 - A * P * 2 ^ 32) with ((B - A) * P * 2 ^ 32) by lia.
  change (2 ^ 64) with (2 ^ 32 * 2 ^ 32).
  rewrite Z.mul_mod_distr_r by lia.
  set (u := ((B - A) * P) mod 2 ^ 32).
  change (2 ^ 0) with 1.
  replace (- (u * 2 ^ 32) + 1) with (1 + - u * 2 ^ 32) by lia.
  rewrite Z_mod_plus_full, Z_div_plus_full by lia.
  change (1 mod 2 ^ 32) with 1. change (1 / 2 ^ 32) with 0.
  rewrite Z.add_0_l. do 2 f_equal.
  unfold u. rewrite <- (Z.sub_0_l (_ mod _)), Zminus_mod_idemp_r.
  f_equal. lia.
Qed.

(** The pair read back for operands of the same bit length. *)
Lemma divide_same_length_pair (n : nat) (a b : Z) (signed : bool) :
  Z.land a mask32 <> 0 -> Z.land b mask32 <> 0 ->
  Z.log2 (Z.land a mask32) = Z.log2 (Z.land b mask32) ->
  divide (31 + n) a b signed =
  Done (1,
        Z.land (Z.shiftl (Z.land a mask32 - Z.land b mask32)
                         (31 - Z.log2 (Z.land b mask32)))
               mask32).
Proof.
  rewrite !mask32_mod. intros Ha Hb Hl.
  pose proof (Z.mod_pos_bound b (2 ^ 32) ltac:(lia)) as HB.
  assert (Z.log2 (b mod 2 ^ 32) < 32) by (apply Z.log2_lt_pow2; lia).
  rewrite Z.shiftl_mul_pow2 by lia.
  now apply divide_equal_log2.
Qed.

(** X12.  Operands of the same bit length: [div_init] leaves stage 0,
    so a single [div_step] runs (it returns true and the driver loop
    stops on it); the quotient read back is 1 whichever operand is
    larger, and the remainder read back is the difference of the two
    operands shifted left by the divisor's normalization count, masked
    to 32 bits. *)
Theorem divide_same_length (n : nat) (a b : Z) (signed : bool) :
  Z.land a mask32 <> 0 -> Z.land b mask32 <> 0 ->
  Z.log2 (Z.land a mask32) = Z.log2 (Z.land b mask32) ->
  exists x s',
    div_init (31 + n) a b signed init = Done x /\
    stage x = 0 /\
    div_step x = Done (s', true) /\
    div_run (31 + n) x = Done s' /\
    div_result s' a b signed = 1 /\
    div_remainder s' a b signed =
      Z.land (Z.shiftl (Z.land a mask32 - Z.land b mask32)
                       (31 - Z.log2 (Z.land b mask32)))
             mask32 /\
    divide (31 + n) a b signed =
      Done (1,
            Z.land (Z.shiftl (Z.land a mask32 - Z.land b mask32)
                             (31 - Z.log2 (Z.land b mask32)))
                   mask32).
Proof.
  intros Ha Hb Hl.
  pose proof (divide_same_length_pair n a b signed Ha Hb Hl) as Hpair.
  rewrite mask32_mod in Ha. rewrite mask32_mod in Hb.
  rewrite (mask32_mod a), (mask32_mod b) in Hl.
  pose proof (div_init_closed n a b signed init Ha Hb) as Ex.
  match type of Ex with _ = Done ?r => set (x := r) in Ex end.
  assert (Hst : stage x = 0) by (unfold x; cbn [stage]; lia).
  assert (Hd : divisor x =
               Some (b mod 2 ^ 32 * 2 ^ (31 - Z.log2 (b mod 2 ^ 32))))
    by reflexivity.
  pose proof (div_step_spec x _ Hd) as Hstep.
  rewrite Hst in Hstep.
  change (0 - 1 <? 0) with true in Hstep.
  match type of Hstep with _ = Done (?r, _) => set (s' := r) in Hstep end.
  destruct (divide_single_step (30 + n) a b signed x s' Ex Hstep)
    as (Hrun & Hdiv).
  change (S (30 + n)) with (31 + n)%nat in Hrun, Hdiv.
  rewrite Hpair in Hdiv.
  exists x, s'. split; [exact Ex|]. split; [exact Hst|].
  split; [exact Hstep|]. split; [exact Hrun|].
  split; [congruence|]. split; [congruence|]. exact Hpair.
Qed.

Lemma divide_same_length_witness :
  Z.land 4 mask32 <> 0 /\ Z.land 5 mask32 <> 0 /\
  Z.log2 (Z.land 4 mask32) = Z.log2 (Z.land 5 mask32) /\
  exists x s',
    div_init 31 4 5 false init = Done x /\
    stage x = 0 /\
    div_step x = Done (s', true) /\
    div_run 31 x = Done s' /\
    div_result s' 4 5 false = 1 /\
    div_remainder s' 4 5 false = 0xe0000000 /\
    divide 31 4 5 false = Done (1, 0xe0000000).
Proof.
  split; [discriminate|]. split; [discriminate|]. split; [reflexivity|].
  apply (divide_same_length 0 4 5 false); [discriminate|discriminate|reflexivity].
Defined.

(** X13.  Dividing a nonzero 32-bit value by itself reads back
    quotient 1 and remainder 0. *)
Theorem divide_by_itself (n : nat) (a : Z) (signed : bool) :
  Z.land a mask32 <> 0 -> divide (31 + n) a a signed = Done (1, 0).
Proof.
  rewrite mask32_mod. intros Ha.
  rewrite divide_equal_log2 by (assumption || reflexivity).
  now rewrite Z.sub_diag, Z.mul_0_l.
Qed.

Lemma divide_by_itself_witness :
  Z.land 0xdeadbeef mask32 <> 0 /\
  divide 31 0xdeadbeef 0xdeadbeef true = Done (1, 0).
Proof.
  split; [discriminate|].
  apply (divide_by_itself 0 0xdeadbeef true). discriminate.
Defined.

(** X14.  When both operands have bit 31 set and the dividend is not
    smaller than the divisor, the quotient and remainder read back are
    those of unsigned division. *)
Theorem divide_top_bit_operands (n : nat) (a b : Z) (signed : bool) :
  2 ^ 31 <= Z.land b mask32 <= Z.land a mask32 ->
  divide (31 + n) a b signed =
  Done (Z.land a mask32 / Z.land b mask32,
        Z.land a mask32 mod Z.land b mask32).
Proof.
  rewrite !mask32_mod. intros Hab.
  pose proof (Z.mod_pos_bound a (2 ^ 32) ltac:(lia)) as HA.
  pose proof (Z.mod_pos_bound b (2 ^ 32) ltac:(lia)) as HB.
  set (A := a mod 2 ^ 32) in *. set (B := b mod 2 ^ 32) in *.
  assert (HlA : Z.log2 A = 31) by (apply Z.log2_unique; lia).
  assert (HlB : Z.log2 B = 31) by (apply Z.log2_unique; lia).
  rewrite divide_equal_log2; fold A B; try lia.
  rewrite HlB. change (2 ^ (31 - 31)) with 1. rewrite Z.mul_1_r.
  rewrite (Z.mod_small (A - B)) by lia.
  rewrite <- (Z.div_unique_pos A B 1 (A - B)) by lia.
  rewrite <- (Z.mod_unique_pos A B 1 (A - B)) by lia.
  reflexivity.
Qed.

Lemma divide_top_bit_operands_witness :
  2 ^ 31 <= Z.land 0x89abcdef mask32 <= Z.land 0xdeadbeef mask32 /\
  divide 31 0xdeadbeef 0x89abcdef false = Done (1, 0x5501f100).
Proof.
  split; [cbn; lia|].
  apply (divide_top_bit_operands 0 0xdeadbeef 0x89abcdef false). cbn. lia.
Defined.

(** X15.  Quotient and remainder as read back are always 32-bit
    values, and together they are the low 64 bits of the accumulator,
    whatever the accumulator holds. *)
Theorem div_result_remainder_pack (x : multdiv) (a b : Z) (signed : bool) :
  0 <= div_result x a b signed < 2 ^ 32 /\
  0 <= div_remainder x a b signed < 2 ^ 32 /\
  div_result x a b signed + Z.shiftl (div_remainder x a b signed) 32
  = Z.land (accumulator x) mask64.
Proof.
  unfold div_result, div_remainder.
  rewrite !mask32_mod, mask64_mod, Z.shiftr_div_pow2, Z.shiftl_mul_pow2 by lia.
  split; [apply Z.mod_pos_bound; lia|]. split; [apply Z.mod_pos_bound; lia|].
  change (2 ^ 64) with (2 ^ 32 * 2 ^ 32). rewrite Z.rem_mul_r by lia. lia.
Qed.

End DivideResults.

(** * Register widths over operation sequences *)

Section Widths.

Lemma run_ops_app (l1 l2 : list op) :
  forall s : multdiv,
    run_ops (l1 ++ l2) s = (x <- run_ops l1 s ;; run_ops l2 x).
Proof.
  induction l1 as [|o l1 IH]; intros s; cbn [run_ops app bind];
    [reflexivity|].
  destruct (apply_op o s) as [x| |]; cbn [bind]; [apply IH|reflexivity..].
Qed.

(** X16.  Whatever operations are issued on a fresh engine, in any
    order, as long as they return: the multiplier, the multiplicand and
    (once it exists) the divisor hold values in [[0, 2^32)]. *)
Theorem narrow_registers_stay_in_range (ops : list op) (s : multdiv) :
  run_ops ops init = Done s -> narrow_in_range s.
Proof.
  apply run_ops_narrow.
  split; [cbn; lia|]. split; [cbn; lia|]. intros d Hd. discriminate Hd.
Qed.

Lemma narrow_registers_stay_in_range_witness :
  let ops := [MulInit (-3) 5 true true; MulStep; DivInit 31 12 2 false;
              DivStep; MulStep] in
  exists s, run_ops ops init = Done s /\ narrow_in_range s.
Proof.
  intros ops. eexists. split; [vm_compute; reflexivity|].
  apply (narrow_registers_stay_in_range ops). vm_compute. reflexivity.
Defined.

(** X17.  [div_step] is the only operation that can leave the
    accumulator outside [[0, 2^64)]: after any sequence that returns and
    whose last operation is something else, the accumulator is in
    range, whatever state the sequence started from. *)
Theorem accumulator_in_range_unless_div_step (ops : list op) (o : op)
  (self s : multdiv) :
  is_div_step o = false ->
  run_ops (ops ++ [o]) self = Done s ->
  accumulator_in_range s.
Proof.
  intros Ho. rewrite run_ops_app.
  destruct (run_ops ops self) as [x| |]; cbn [bind run_ops]; try discriminate.
  destruct (apply_op o x) as [y| |] eqn:E; cbn [bind]; try discriminate.
  intros [= <-]. apply (apply_op_accumulator o x y); [|exact E].
  intros ->. discriminate Ho.
Qed.

Lemma accumulator_in_range_unless_div_step_witness :
  let ops := [DivInit 31 12 2 false; DivStep] in
  exists s,
    is_div_step MulStep = false /\
    run_ops (ops ++ [MulStep]) init = Done s /\
    accumulator_in_range s.
Proof.
  intros ops. eexists. split; [reflexivity|].
  split; [vm_compute; reflexivity|].
  apply (accumulator_in_range_unless_div_step ops MulStep init);
    [reflexivity|vm_compute; reflexivity].
Defined.

End Widths.

(** * The driver's signed reading of an operand *)

Section Signed32.

Lemma signed32_range (a : Z) : - 2 ^ 31 <= signed32 a < 2 ^ 31.
Proof.
  rewrite signed32_spec.
  pose proof (Z.mod_pos_bound a (2 ^ 32) ltac:(lia)).
  destruct (Z.leb_spec (2 ^ 31) (a mod 2 ^ 32)); lia.
Qed.

Lemma signed32_low32 (a a' : Z) :
  a mod 2 ^ 32 = a' mod 2 ^ 32 -> signed32 a = signed32 a'.
Proof. intros H. now rewrite !signed32_spec, H. Qed.

Lemma signed32_idempotent (a : Z) : signed32 (signed32 a) = signed32 a.
Proof. apply signed32_low32, signed32_mod. Qed.

Lemma signed32_fixed (a : Z) : - 2 ^ 31 <= a < 2 ^ 31 -> signed32 a = a.
Proof.
  intros Ha. rewrite signed32_spec.
  destruct (Z.lt_ge_cases a 0) as [Hneg|Hpos].
  - rewrite <- (Z.mod_unique a (2 ^ 32) (-1) (a + 2 ^ 32)) by lia.
    destruct (Z.leb_spec (2 ^ 31) (a + 2 ^ 32)); lia.
  - rewrite Z.mod_small by lia.
    destruct (Z.leb_spec (2 ^ 31) a); lia.
Qed.

(** X18.  The signed reading built by the drivers is the two's
    complement value of the low 32 bits: it lies in [[-2^31, 2^31)],
    masks back to the same 32 bits, is unchanged by a second reading,
    and leaves exactly the integers of that range as they are. *)
Theorem signed32_round_trip (a : Z) :
  - 2 ^ 31 <= signed32 a < 2 ^ 31 /\
  Z.land (signed32 a) mask32 = Z.land a mask32 /\
  signed32 (signed32 a) = signed32 a /\
  (signed32 a = a <-> - 2 ^ 31 <= a < 2 ^ 31).
Proof.
  split; [apply signed32_range|]. split.
  - rewrite !mask32_mod. apply signed32_mod.
  - split; [apply signed32_idempotent|]. split.
    + intros <-. apply signed32_range.
    + apply signed32_fixed.
Qed.

End Signed32.

(** * The multiply self-test *)

Section TestMult.

Lemma product_fits (x y : Z) :
  0 <= x < 2 ^ 32 -> 0 <= y < 2 ^ 32 -> 0 <= x * y < 2 ^ 64.
Proof.
  intros Hx Hy. split; [nia|].
  apply Z.le_lt_trans with ((2 ^ 32 - 1) * (2 ^ 32 - 1)); [|lia].
  apply Z.mul_le_mono_nonneg; lia.
Qed.

(** One case of the self-test: the engine's result equals the expected
    value computed by the driver, so the line carries no flag. *)
Lemma test_mult_case_ok (n : nat) (test_a test_b : Z)
  (flags : bool * bool) (signs : Z * Z) :
  exists row,
    test_mult_case (8 + n) test_a test_b flags signs = Done row /\
    row_r row = row_m row /\ row_err row = EmptyString.
Proof.
  destruct flags as [sa sb], signs as [na nb]. unfold test_mult_case.
  change (let a := Z.land (na * test_a) mask32 in
          if negb (Z.land a sign_bit =? 0) then a - Z.shiftl 1 32 else a)
    with (signed32 (na * test_a)).
  cbv zeta.
  change (if negb (Z.land (Z.land (na * test_a) mask32) sign_bit =? 0)
          then Z.land (na * test_a) mask32 - Z.shiftl 1 32
          else Z.land (na * test_a) mask32)
    with (signed32 (na * test_a)).
  change (if negb (Z.land (Z.land (nb * test_b) mask32) sign_bit =? 0)
          then Z.land (nb * test_b) mask32 - Z.shiftl 1 32
          else Z.land (nb * test_b) mask32)
    with (signed32 (nb * test_b)).
  set (a := signed32 (na * test_a)). set (b := signed32 (nb * test_b)).
  destruct (mul_init_run a b sa sb n init) as (s & Hrun & Hacc & _).
  destruct (mul_init a b sa sb init) as [x0| |]; cbn [bind] in *;
    try discriminate.
  rewrite Hrun. cbn [bind].
  assert (Heq : accumulator s =
                (if sb && negb sa
                 then Z.land (b * Z.land a mask32) mask64
                 else if sa && negb sb
                      then Z.land (a * Z.land b mask32) mask64
                      else if sa && sb
                           then Z.land (a * b) mask64
                           else Z.land a mask32 * Z.land b mask32)).
  { rewrite Hacc, !mask64_mod, !mask32_mod.
    assert (Ha : signed32 a = a) by apply signed32_idempotent.
    assert (Hb : signed32 b = b) by apply signed32_idempotent.
    destruct sa, sb; cbn [andb negb].
    - rewrite product_signed_both, Ha, Hb. reflexivity.
    - rewrite product_signed_a, Ha. reflexivity.
    - rewrite product_signed_b, Hb. f_equal. lia.
    - rewrite bias_unsigned, Z.sub_0_r. apply Z.mod_small.
      apply product_fits; apply Z.mod_pos_bound; lia. }
  eexists. split; [reflexivity|]. cbn [row_r row_m row_err].
  rewrite <- Heq, Z.eqb_refl. split; reflexivity.
Qed.

(** X19.  The self-test [test_mult] passes on every pair of inputs: it
    prints sixteen lines (four flag settings times four sign patterns)
    and on each the engine's accumulator equals the driver's expected
    value, so none is flagged. *)
Theorem test_mult_passes (n : nat) (test_a test_b : Z) :
  exists rows,
    test_mult (8 + n) test_a test_b = Done rows /\
    List.length rows = 16%nat /\
    Forall (fun row => row_r row = row_m row /\ row_err row = EmptyString)
           rows.
Proof.
  unfold test_mult. cbv zeta. cbn [for_each].
  repeat match goal with
         | |- context [test_mult_case (8 + n) ?a ?b ?fl ?sg] =>
             let r := fresh "row" in
             let E := fresh "E" in
             destruct (test_mult_case_ok n a b fl sg) as (r & E & ? & ?);
             rewrite E; clear E; cbn [bind]
         end.
  eexists. split; [reflexivity|]. split; [reflexivity|].
  cbn [List.concat app]. repeat constructor; assumption.
Qed.

End TestMult.

(** * Reusing an engine *)

Section Reuse.

Lemma div_step_same_regs (s t : multdiv) :
  same_div_regs s t ->
  outcome_rel (fun r1 r2 => same_div_regs (fst r1) (fst r2) /\ snd r1 = snd r2)
              (div_step s) (div_step t).
Proof.
  intros (Ha & Hs & Hd).
  destruct (divisor t) as [d|] eqn:Et.
  - rewrite (div_step_spec s d), (div_step_spec t d) by congruence.
    cbn [outcome_rel fst snd]. unfold same_div_regs.
    cbn [accumulator stage divisor]. rewrite Ha, Hs. repeat split.
  - unfold div_step, get_divisor. rewrite Hd, Et. reflexivity.
Qed.

Lemma div_run_same_regs (fuel : nat) :
  forall s t : multdiv,
    same_div_regs s t ->
    outcome_rel same_div_regs (div_run fuel s) (div_run fuel t).
Proof.
  induction fuel as [|fuel IH]; intros s t Hst; cbn [div_run];
    [exact I|].
  pose proof (div_step_same_regs s t Hst) as Hstep.
  destruct (div_step s) as [[s1 r1]| |], (div_step t) as [[t1 r2]| |];
    cbn [outcome_rel bind fst snd] in *; try contradiction; try assumption.
  destruct Hstep as [H1 <-]. destruct r1; [exact H1|now apply IH].
Qed.

Lemma normalize_divisor_same_regs (fuel : nat) :
  forall s t : multdiv,
    same_div_regs s t ->
    outcome_rel same_div_regs
                (normalize_divisor fuel s) (normalize_divisor fuel t).
Proof.
  induction fuel as [|fuel IH]; intros s t Hst;
    pose proof Hst as (Ha & Hs & Hd); cbn [normalize_divisor];
    unfold get_divisor; rewrite Hd; destruct (divisor t) as [d|];
    cbn [bind outcome_rel]; try reflexivity;
    destruct (Z.land d sign_bit =? 0); cbn [outcome_rel];
    try exact I; try exact Hst.
  apply IH. unfold same_div_regs, set_stage, set_divisor.
  cbn [accumulator stage divisor]. rewrite Ha, Hs. repeat split.
Qed.

Lemma normalize_accumulator_same_regs (fuel : nat) :
  forall s t : multdiv,
    same_div_regs s t ->
    outcome_rel same_div_regs
                (normalize_accumulator fuel s) (normalize_accumulator fuel t).
Proof.
  induction fuel as [|fuel IH]; intros s t Hst;
    pose proof Hst as (Ha & Hs & Hd); cbn [normalize_accumulator];
    rewrite Ha;
    destruct (Z.land (accumulator t) (Z.shiftl sign_bit 32) =? 0);
    cbn [outcome_rel]; try exact I; try exact Hst.
  apply IH. unfold same_div_regs, set_stage, set_accumulator.
  cbn [accumulator stage divisor]. repeat split; congruence.
Qed.

(** X20.  A divide does not depend on what the engine held before
    [div_init]: started on any engine, for any fuel, it ends the same
    way as on a fresh one and reads back the same quotient and
    remainder. *)
Theorem divide_ignores_prior_state (fuel : nat) (a b : Z) (signed : bool)
  (self : multdiv) :
  (x <- div_init fuel a b signed self ;;
   x <- div_run fuel x ;;
   Done (div_result x a b signed, div_remainder x a b signed))
  = divide fuel a b signed.
Proof.
  unfold divide. rewrite !div_init_eq.
  assert (H0 : same_div_regs (div_init_loaded a b self)
                             (div_init_loaded a b init))
    by (repeat split).
  pose proof (normalize_divisor_same_regs fuel _ _ H0) as H1.
  destruct (normalize_divisor fuel (div_init_loaded a b self)) as [s1| |],
           (normalize_divisor fuel (div_init_loaded a b init)) as [t1| |];
    cbn [outcome_rel bind] in *; try contradiction; try congruence.
  pose proof (normalize_accumulator_same_regs fuel _ _ H1) as H2.
  destruct (normalize_accumulator fuel s1) as [s2| |],
           (normalize_accumulator fuel t1) as [t2| |];
    cbn [outcome_rel bind] in *; try contradiction; try congruence.
  pose proof (div_run_same_regs fuel _ _ H2) as H3.
  destruct (div_run fuel s2) as [s3| |], (div_run fuel t2) as [t3| |];
    cbn [outcome_rel bind] in *; try contradiction; try congruence.
  destruct H3 as (Ha & _). unfold div_result, div_remainder. now rewrite Ha.
Qed.

Lemma mul_step_same_regs (s t : multdiv) :
  same_mul_regs s t ->
  outcome_rel (fun r1 r2 => same_mul_regs (fst r1) (fst r2) /\ snd r1 = snd r2)
              (mul_step s) (mul_step t).
Proof.
  intros (Ha & Hs & Hm & Hmc). unfold mul_step. rewrite Ha, Hs, Hm, Hmc.
  destruct (combinatorial _ _ _ _ _) as [v| |]; cbn [bind outcome_rel fst snd];
    try reflexivity.
  unfold same_mul_regs, set_multiplier, set_stage, set_accumulator.
  cbn [accumulator stage multiplier multiplicand].
  rewrite Hs, Hm, Hmc. repeat split.
Qed.

Lemma mul_run_same_regs (fuel : nat) :
  forall s t : multdiv,
    same_mul_regs s t ->
    outcome_rel same_mul_regs (mul_run fuel s) (mul_run fuel t).
Proof.
  induction fuel as [|fuel IH]; intros s t Hst; cbn [mul_run];
    [exact I|].
  pose proof (mul_step_same_regs s t Hst) as Hstep.
  destruct (mul_step s) as [[s1 r1]| |], (mul_step t) as [[t1 r2]| |];
    cbn [outcome_rel bind fst snd] in *; try contradiction; try assumption.
  destruct Hstep as [H1 <-]. destruct r1; [exact H1|now apply IH].
Qed.

(** X21.  A multiply does not depend on what the engine held before
    [mul_init] either: on any engine and for any fuel the driver loop
    ends the same way as on a fresh engine, with the same product. *)
Theorem multiply_ignores_prior_state (fuel : nat) (a b : Z) (sa sb : bool)
  (self : multdiv) :
  (x <- mul_init a b sa sb self ;;
   x <- mul_run fuel x ;;
   Done (accumulator x))
  = multiply fuel a b sa sb.
Proof.
  unfold multiply. rewrite !mul_init_spec. cbn [bind].
  match goal with
  | |- bind (mul_run fuel ?s) _ = bind (mul_run fuel ?t) _ =>
      pose proof (mul_run_same_regs fuel s t ltac:(repeat split)) as H
  end.
  destruct (mul_run fuel _) as [s1| |], (mul_run fuel _) as [t1| |];
    cbn [outcome_rel bind] in *; try contradiction; try congruence.
  destruct H as (Ha & _). now rewrite Ha.
Qed.

End Reuse.
